(** * site_404_comparitor: the crawl, cache and comparison engine

    A shallow embedding of [site_404_comparitor/main.py] and the proofs of
    the properties its specification states.

    Layout:
    - [Str]: the [str] methods the program and its libraries call;
    - [posixpath], [pathlib], [furl_path]: the library functions that decide
      what a path is ([posixpath.join], [posixpath.normpath],
      [pathlib.PurePosixPath], [furl.Path.normalize]);
    - the data classes [URL], [Page], [Site], [PageCache];
    - the effects: a state and exception monad over the cache directory,
      the history of HTTP requests, the debug log and standard output;
    - the functions of [main.py], in the order of the file;
    - the theorems. *)

From Stdlib Require Import ZArith Ascii.
From stdpp Require Import base decidable option list strings gmap pretty.

(** ** Python's [str] methods *)

Module Str.

(** [s.startswith(p)] *)
Fixpoint startswith (s p : string) {struct p} : bool :=
  match p, s with
  | EmptyString, _ => true
  | String _ _, EmptyString => false
  | String b p', String a s' => bool_decide (a = b) && startswith s' p'
  end.

(** [s.endswith("/")], the only suffix test of the program. *)
Fixpoint endswith_slash (s : string) : bool :=
  match s with
  | EmptyString => false
  | String a EmptyString => bool_decide (a = "/"%char)
  | String _ s' => endswith_slash s'
  end.

(** [s.split("/")]: never empty, [""] for the empty string. *)
Fixpoint split_slash (s : string) : list string :=
  match s with
  | EmptyString => [EmptyString]
  | String a s' =>
      if bool_decide (a = "/"%char) then EmptyString :: split_slash s'
      else match split_slash s' with
           | x :: xs => String a x :: xs
           | [] => [String a EmptyString]
           end
  end.

(** ["/".join(l)] *)
Fixpoint join_slash (l : list string) : string :=
  match l with
  | [] => EmptyString
  | [x] => x
  | x :: l' => x +:+ "/" +:+ join_slash l'
  end.

(** [s.lstrip("/")] *)
Fixpoint lstrip_slash (s : string) : string :=
  match s with
  | String a s' => if bool_decide (a = "/"%char) then lstrip_slash s' else s
  | EmptyString => EmptyString
  end.

(** ["@" in s] *)
Fixpoint contains_at (s : string) : bool :=
  match s with
  | EmptyString => false
  | String a s' => bool_decide (a = "@"%char) || contains_at s'
  end.

(** [s[n:]] *)
Fixpoint drop (n : nat) (s : string) : string :=
  match n, s with
  | S n', String _ s' => drop n' s'
  | _, _ => s
  end.

End Str.

(** ** [posixpath] *)

Module posixpath.

(** [posixpath.join(a, b)] for two components. *)
Definition join (a b : string) : string :=
  if Str.startswith b "/" then b
  else if bool_decide (a = "") || Str.endswith_slash a then a +:+ b
  else a +:+ "/" +:+ b.

(** [posixpath.splitroot(p)], without the drive, which is always empty. *)
Definition splitroot (p : string) : string * string :=
  if negb (Str.startswith p "/") then ("", p)
  else if negb (Str.startswith p "//") || Str.startswith p "///"
       then ("/", Str.drop 1 p)
       else ("//", Str.drop 2 p).

(** One turn of the loop of [normpath] over the components. *)
Definition normpath_step (initial_slashes : nat) (new_comps : list string)
    (comp : string) : list string :=
  if bool_decide (comp = "") || bool_decide (comp = ".") then new_comps
  else if bool_decide (comp ≠ "..")
          || (bool_decide (initial_slashes = 0) && bool_decide (new_comps = []))
          || bool_decide (last new_comps = Some "..")
       then new_comps ++ [comp]
       else removelast new_comps.

(** [posixpath.normpath(path)] *)
Definition normpath (path : string) : string :=
  if bool_decide (path = "") then "."
  else
    let initial_slashes :=
      if negb (Str.startswith path "/") then 0
      else if Str.startswith path "//" && negb (Str.startswith path "///")
           then 2 else 1 in
    let comps := foldl (normpath_step initial_slashes) [] (Str.split_slash path) in
    let path' := Str.join_slash comps in
    let path' :=
      match initial_slashes with
      | 0 => path'
      | 1 => "/" +:+ path'
      | _ => "//" +:+ path'
      end in
    if bool_decide (path' = "") then "." else path'.

End posixpath.

(** ** [pathlib]

    The program runs on POSIX, where [pathlib.Path] is a [PurePosixPath]
    as far as the program uses it (it never touches the file system through
    a URL's path).  Two paths are equal, and hash alike, when their [str()]
    are equal; a path is represented by that text. *)

Record PurePosixPath := mkPath { Path_str : string }.

Global Instance Path_eq_dec : EqDecision PurePosixPath.
Proof. solve_decision. Defined.

Module pathlib.

(** [PurePath._parse_path]: the root and the tail; the components [""]
    and ["."] are dropped, [".."] is kept. *)
Definition parse_path (path : string) : string * list string :=
  if bool_decide (path = "") then ("", [])
  else
    let '(root, rel) := posixpath.splitroot path in
    (root, filter (λ x, x ≠ "" ∧ x ≠ ".") (Str.split_slash rel)).

(** [PurePath._format_parsed_parts] followed by the [or "."] of
    [PurePath.__str__]. *)
Definition format_parsed_parts (root : string) (tail : list string) : string :=
  let s := root +:+ Str.join_slash tail in
  if bool_decide (s = "") then "." else s.

(** [pathlib.Path(s)] *)
Definition Path (s : string) : PurePosixPath :=
  let '(root, tail) := parse_path s in
  mkPath (format_parsed_parts root tail).

(** [self / other]: the segments are joined with [posixpath.join] and
    parsed again. *)
Definition truediv (self other : PurePosixPath) : PurePosixPath :=
  Path (posixpath.join (Path_str self) (Path_str other)).

End pathlib.

(** ** [furl.Path.normalize]

    [str(path.normalize())] as a function of [str(path)]: [normpath], the
    trailing slash of a directory put back, and a leading double slash
    reduced to one. *)

Module furl_path.

Definition isdir (s : string) : bool :=
  bool_decide (s = "") || Str.endswith_slash s.

Definition normalize (s : string) : string :=
  if bool_decide (s = "") then s
  else
    let normalized :=
      posixpath.normpath s +:+ (if isdir s then "/" else "") in
    if Str.startswith normalized "//"
    then "/" +:+ Str.lstrip_slash normalized
    else normalized.

End furl_path.

(** ** What the third-party libraries return *)

Inductive Exception :=
  | RecursionError
  | FileNotFoundError
  | UnpicklingError
  | ValueError (msg : string)      (* furl, on a string it cannot parse *)
  | HTTPError (msg : string).      (* httpx, when no response arrives *)

Inductive result (A : Type) :=
  | Ok (a : A)
  | Raise (e : Exception).
Arguments Ok {A} a.
Arguments Raise {A} e.

(** [httpx.Response]: the status code and the body. *)
Record Response := mkResponse {
  status_code : Z;
  content : string;
}.

(** A [bs4] tag: its attributes, in the order of the document. *)
Record Tag := mkTag { attrs : list (string * string) }.

(** [key in a.attrs] and [a[key]] *)
Fixpoint Tag_get (key : string) (l : list (string * string)) : option string :=
  match l with
  | [] => None
  | (k, v) :: l' => if decide (k = key) then Some v else Tag_get key l'
  end.

(** The parts of a [furl.furl] the program reads: [.host], which is [None]
    when the string names no host, and [str(.path)]. *)
Record Furl := mkFurl {
  furl_host : option string;
  furl_path : string;
}.

(** The library calls the program makes and whose results it only passes
    on.  [httpx_get] is given the requests made so far: a server may answer
    the same request differently over time. *)
Class Libraries := {
  sha256_hexdigest : string → string;
  furl_tostr : string → option string → string → string;
  furl_furl : string → result Furl;
  find_all_a : string → list Tag;
  httpx_get : list string → string → result Response;
}.

(** ** The data classes *)

(** [host] is annotated [str]; it is [None] when [main] is given a root
    without a host, since [furl(...).host] is stored as it comes. *)
Record URL := mkURL {
  URL_host : option string;
  URL_path : PurePosixPath;
  URL_scheme : string;
}.

Definition default_scheme : string := "https".

(** [URL(host=h, path=p)], the only way the program builds a URL. *)
Definition URL_new (host : option string) (path : PurePosixPath) : URL :=
  mkURL host path default_scheme.

Global Instance URL_eq_dec : EqDecision URL.
Proof. solve_decision. Defined.

Global Instance Response_eq_dec : EqDecision Response.
Proof. solve_decision. Defined.

Record Page := mkPage {
  Page_url : URL;
  Page_response : Response;
}.

Global Instance Page_eq_dec : EqDecision Page.
Proof. solve_decision. Defined.

Definition Page_status_code (self : Page) : Z := status_code (Page_response self).

(** [dict[URL, Page]]: insertion order is kept, and assigning to a key that
    is present replaces its value where it stands. *)
Definition dict := list (URL * Page).

Definition dict_contains (k : URL) (d : dict) : bool := bool_decide (k ∈ d.*1).

Definition dict_setitem (k : URL) (v : Page) (d : dict) : dict :=
  if dict_contains k d
  then (λ kv, if decide (kv.1 = k) then (kv.1, v) else kv) <$> d
  else d ++ [(k, v)].

Record Site := mkSite {
  Site_url : URL;
  Site_pages : dict;
}.

Record PageCache := mkPageCache { PageCache_path : PurePosixPath }.

(** ** The world outside the process *)

(** A file of the cache directory: the pickle of a page, or bytes that
    [pickle.load] rejects. *)
Inductive File :=
  | Pickled (page : Page)
  | Corrupt.

(** The records of the logger [LOG], one constructor per call. *)
Inductive LogRecord :=
  | LogReading (url : URL) (cache_path : string)          (* line 78 *)
  | LogProblem (cache_path : string) (e : Exception)      (* line 84 *)
  | LogFetchingWriting (url : URL) (cache_path : string)  (* line 90 *)
  | LogReading2 (url : URL) (cache_path : string)         (* line 96 *)
  | LogResponse (url : URL) (response : Response)         (* line 103 *)
  | LogProcessPage (page : Page)                          (* line 109 *)
  | LogProcessing (page : Page) (url : URL)               (* line 111 *)
  | LogFetching (url : URL)                               (* line 115 *)
  | LogWalking (site : Site)                              (* line 125 *)
  | LogComparing (original target : Site)                 (* line 157 *)
  | LogChecking (url target_url : URL).                   (* line 177 *)

(** A row of the report, as [csv.DictWriter] receives it. *)
Record Row := mkRow {
  original : string;
  target : string;
  original_status_code : Z;
  target_status_code : Z;
  original_path : string;
  target_path : string;
}.

Inductive CsvLine :=
  | Header
  | Line (row : Row).

(** The cache directory (a file is addressed by its name in it), the
    requests sent with [httpx.get], the log and standard output; the three
    lists are in the order of time. *)
Record World := mkWorld {
  disk : gmap string File;
  requests : list string;
  log : list LogRecord;
  stdout : list CsvLine;
}.

(** ** State and exceptions *)

Definition M (A : Type) : Type := World → result A * World.

Definition ret {A} (a : A) : M A := λ w, (Ok a, w).

Definition raise {A} (e : Exception) : M A := λ w, (Raise e, w).

Definition bind {A B} (m : M A) (f : A → M B) : M B := λ w,
  match m w with
  | (Ok a, w') => f a w'
  | (Raise e, w') => (Raise e, w')
  end.

(** [try: m except Exception as e: h e] *)
Definition try_except {A} (m : M A) (h : Exception → M A) : M A := λ w,
  match m w with
  | (Ok a, w') => (Ok a, w')
  | (Raise e, w') => h e w'
  end.

Global Instance M_ret : MRet M := @ret.
Global Instance M_bind : MBind M := λ A B f m, bind m f.

(** [for x in l: acc = body acc x], the loop stopping at the first
    exception. *)
Fixpoint for_each {A S} (body : S → A → M S) (l : list A) (acc : S) : M S :=
  match l with
  | [] => ret acc
  | x :: l' => acc' ← body acc x; for_each body l' acc'
  end.

Definition LOG (r : LogRecord) : M unit := λ w,
  (Ok (), mkWorld (disk w) (requests w) (log w ++ [r]) (stdout w)).

Definition is_file (name : string) : M bool := λ w,
  (Ok (bool_decide (is_Some (disk w !! name))), w).

(** [with name.open("rb") as fp: pickle.load(fp)] *)
Definition pickle_load (name : string) : M Page := λ w,
  match disk w !! name with
  | Some (Pickled page) => (Ok page, w)
  | Some Corrupt => (Raise UnpicklingError, w)
  | None => (Raise FileNotFoundError, w)
  end.

(** [with name.open("wb") as fp: pickle.dump(page, fp)] *)
Definition pickle_dump (name : string) (page : Page) : M unit := λ w,
  (Ok (), mkWorld (<[name := Pickled page]> (disk w)) (requests w) (log w) (stdout w)).

Definition unlink (name : string) : M unit := λ w,
  (Ok (), mkWorld (delete name (disk w)) (requests w) (log w) (stdout w)).

(** [self.path.mkdir(parents=True, exist_ok=True)]: the directory is the
    disk of the model, which is there. *)
Definition mkdir : M unit := ret ().

Definition write (l : CsvLine) : M unit := λ w,
  (Ok (), mkWorld (disk w) (requests w) (log w) (stdout w ++ [l])).

(** A pure computation that may raise. *)
Definition lift {A} (r : result A) : M A := λ w, (r, w).

(** ** The program *)

Section Program.
Context `{Libraries}.

(** [url.furl.tostr()] *)
Definition URL_furl_tostr (self : URL) : string :=
  furl_tostr (URL_scheme self) (URL_host self) (Path_str (URL_path self)).

Definition URL_set_host (self : URL) (host : option string) : URL :=
  URL_new host (URL_path self).

Definition URL_join_path (self : URL) (other : PurePosixPath) : URL :=
  let new_path := pathlib.truediv (URL_path self) other in
  URL_new (URL_host self) new_path.

(** One turn of the loop of [Page.get_urls]: what the anchor yields. *)
Definition get_urls_step (self : Page) (a : Tag) : result (list URL) :=
  match Tag_get "href" (attrs a) with
  | None => Ok []
  | Some s =>
      match furl_furl s with
      | Raise e => Raise e
      | Ok href =>
          if bool_decide (furl_host href ≠ None)
             && bool_decide (furl_host href ≠ URL_host (Page_url self))
          then Ok []
          else if Str.contains_at (furl_path href) then Ok []
          else
            let path := pathlib.Path (furl_path.normalize (furl_path href)) in
            Ok [URL_join_path (Page_url self) path]
      end
  end.

Fixpoint get_urls_loop (self : Page) (l : list Tag) : result (list URL) :=
  match l with
  | [] => Ok []
  | a :: l' =>
      match get_urls_step self a with
      | Raise e => Raise e
      | Ok us =>
          match get_urls_loop self l' with
          | Raise e => Raise e
          | Ok us' => Ok (us ++ us')
          end
      end
  end.

(** [list(page.get_urls())] *)
Definition Page_get_urls (self : Page) : result (list URL) :=
  get_urls_loop self (find_all_a (content (Page_response self))).

Definition get_page (url : URL) : M Page := λ w,
  let s := URL_furl_tostr url in
  let w' := mkWorld (disk w) (requests w ++ [s]) (log w) (stdout w) in
  match httpx_get (requests w) s with
  | Raise e => (Raise e, w')
  | Ok response => (LOG (LogResponse url response);; ret (mkPage url response)) w'
  end.

Definition cache_path (url : URL) : string :=
  let url_hash := sha256_hexdigest (URL_furl_tostr url) in
  url_hash +:+ ".pickle".

Definition PageCache_get_page (self : PageCache) (url : URL) : M Page :=
  let cache_path := cache_path url in
  LOG (LogReading url cache_path);;
  b ← is_file cache_path;
  r ← (if b : bool then
         try_except
           (page ← pickle_load cache_path; ret (Some page))
           (λ e, LOG (LogProblem cache_path e);; unlink cache_path;; ret None)
       else ret None);
  match r with
  | Some page => ret page
  | None =>
      b ← is_file cache_path;
      (if negb b then
         LOG (LogFetchingWriting url cache_path);;
         mkdir;;
         page ← get_page url;
         pickle_dump cache_path page
       else ret ());;
      LOG (LogReading2 url cache_path);;
      pickle_load cache_path
  end.

(** [depth] is the number of nested calls the interpreter still allows;
    the call that exceeds it raises [RecursionError]. *)
Fixpoint process_page (depth : nat) (site : Site) (page : Page)
    (cache : PageCache) : M Site :=
  match depth with
  | 0 => raise RecursionError
  | S depth' =>
      LOG (LogProcessPage page);;
      urls ← lift (Page_get_urls page);
      for_each (λ site url,
        LOG (LogProcessing page url);;
        if negb (dict_contains url (Site_pages site)) then
          LOG (LogFetching url);;
          new_page ← PageCache_get_page cache url;
          let site :=
            mkSite (Site_url site)
                   (dict_setitem (Page_url new_page) new_page (Site_pages site)) in
          process_page depth' site new_page cache
        else ret site) urls site
  end.

Definition walk_site (depth : nat) (site : Site) (cache : PageCache) : M Site :=
  LOG (LogWalking site);;
  root ← PageCache_get_page cache (Site_url site);
  let site :=
    mkSite (Site_url site) (dict_setitem (Page_url root) root (Site_pages site)) in
  process_page depth site root cache.

(** Lines 163 to 187 of [main]: the header, then a row for each item of
    [original.pages]. *)
Definition main_report (original target : Site) (cache : PageCache) : M unit :=
  write Header;;
  for_each (λ _ item,
    let page := item.2 in
    let target_url := URL_set_host (Page_url page) (URL_host (Site_url target)) in
    LOG (LogChecking item.1 target_url);;
    target_page ← PageCache_get_page cache target_url;
    let row := {|
      original := URL_furl_tostr (Page_url page);
      target := URL_furl_tostr (Page_url target_page);
      original_status_code := Page_status_code page;
      target_status_code := Page_status_code target_page;
      original_path := Path_str (URL_path (Page_url page));
      target_path := Path_str (URL_path (Page_url target_page));
    |} in
    write (Line row)) (Site_pages original) ().

(** [furl.furl(s).host] and [pathlib.Path(str(furl.furl(s).path.normalize()))] *)
Definition site_of (s : string) : M Site :=
  f ← lift (furl_furl s);
  ret (mkSite (URL_new (furl_host f)
                       (pathlib.Path (furl_path.normalize (furl_path f)))) []).

Definition main (depth : nat) (original_site target_site : string)
    (cache_path : PurePosixPath) : M unit :=
  let original_site :=
    if negb (Str.endswith_slash original_site)
    then original_site +:+ "/" else original_site in
  let target_site :=
    if negb (Str.endswith_slash target_site)
    then target_site +:+ "/" else target_site in
  original ← site_of original_site;
  target ← site_of target_site;
  LOG (LogComparing original target);;
  let cache := mkPageCache cache_path in
  original ← walk_site depth original cache;
  main_report original target cache.

End Program.

(** ** The vocabulary of the statements *)

(** The world after one more record in the log. *)
Definition log_step (r : LogRecord) (w : World) : World :=
  mkWorld (disk w) (requests w) (log w ++ [r]) (stdout w).

(** The records [process_page] writes itself. *)
Definition walker_record (r : LogRecord) : Prop :=
  match r with
  | LogProcessPage _ | LogProcessing _ _ | LogFetching _ => True
  | _ => False
  end.

(** The URLs asked of the page cache, one per call of
    [PageCache.get_page] (line 78), in the order of the calls. *)
Definition lookups (l : list LogRecord) : list URL :=
  omap (λ r, match r with LogReading url _ => Some url | _ => None end) l.

(** The URLs fetched over the network (line 90), in the order of the
    fetches. *)
Definition fetches (l : list LogRecord) : list URL :=
  omap (λ r, match r with LogFetchingWriting url _ => Some url | _ => None end) l.

(** The URLs asked of the page cache from the world [w] to the world [w']:
    the lookups among the records the log has received since. *)
Definition asked (w w' : World) : list URL :=
  lookups (drop (length (log w)) (log w')).

Definition keys (d : dict) : list URL := d.*1.

(** Every key of the page map is the URL of its page. *)
Definition pages_keyed (d : dict) : Prop :=
  Forall (λ kv, Page_url kv.2 = kv.1) d.

(** The file is absent, or does not unpickle. *)
Definition is_miss (f : option File) : Prop :=
  f = None ∨ f = Some Corrupt.

(** No [/] in the string. *)
Fixpoint slash_free (s : string) : Prop :=
  match s with
  | EmptyString => True
  | String a s' => a ≠ "/"%char ∧ slash_free s'
  end.

(** A component [pathlib] keeps. *)
Definition valid_part (x : string) : Prop :=
  x ≠ "" ∧ x ≠ "." ∧ slash_free x.

Definition valid_root (root : string) : Prop :=
  root = "" ∨ root = "/" ∨ root = "//".

Section Vocabulary.
Context `{Libraries}.

(** What the log receives on a miss, before the request is sent. *)
Definition miss_log (url : URL) (f : option File) : list LogRecord :=
  [LogReading url (cache_path url)]
  ++ match f with
     | Some _ => [LogProblem (cache_path url) UnpicklingError]
     | None => []
     end
  ++ [LogFetchingWriting url (cache_path url)].

(** A valid artifact that stands under the file name of a URL of [urls]
    holds a page of that URL. *)
Definition answers_for (urls : list URL) (d : gmap string File) : Prop :=
  ∀ url stored, url ∈ urls →
    d !! cache_path url = Some (Pickled stored) → Page_url stored = url.

(** No two URLs of [urls] share a file name in the cache. *)
Definition collision_free_on (urls : list URL) : Prop :=
  ∀ url1 url2, url1 ∈ urls → url2 ∈ urls →
    cache_path url1 = cache_path url2 → url1 = url2.

(** The artifact holds a page. *)
Definition cached (d : gmap string File) (url : URL) : Prop :=
  ∃ page, d !! cache_path url = Some (Pickled page).

(** The invariant of the walk on the calls of the cache: since the log
    was [base] and the keys of the page map were [keys1], each call was
    for a URL the map did not hold, and added it. *)
Definition lookups_inv (urls : list URL) (base : list LogRecord)
    (keys1 : list URL) (site : Site) (w : World) : Prop :=
  answers_for urls (disk w) ∧
  ∃ new, log w = base ++ new ∧
    keys (Site_pages site) = keys1 ++ lookups new ∧
    NoDup (lookups new) ∧ ∀ url, url ∈ lookups new → url ∉ keys1.

Definition lookups_exc (base : list LogRecord) (keys1 : list URL)
    (e : Exception) (w : World) : Prop :=
  ∃ new, log w = base ++ new ∧
    NoDup (lookups new) ∧ ∀ url, url ∈ lookups new → url ∉ keys1.

(** The invariant of the walk on the network: what was fetched since the
    log was [base] was fetched once and is in the cache. *)
Definition fetches_inv (base : list LogRecord) (w : World) : Prop :=
  ∃ new, log w = base ++ new ∧
    NoDup (fetches new) ∧ ∀ url, url ∈ fetches new → cached (disk w) url.

Definition fetches_exc (base : list LogRecord) (w : World) : Prop :=
  ∃ new, log w = base ++ new ∧ NoDup (fetches new).

(** The invariant of the walk on the requests: those sent since the
    history was [base] were all answered. *)
Definition all_answered (base done : list string) : Prop :=
  ∀ before s after, done = before ++ s :: after →
    ∃ response, httpx_get (base ++ before) s = Ok response.

Definition requests_inv (base : list string) (w : World) : Prop :=
  ∃ done, requests w = base ++ done ∧ all_answered base done.

(** When the walk is left with [e]: a request that failed is the last one,
    failed with [e], and has no artifact. *)
Definition requests_exc (base : list string) (e : Exception) (w : World) : Prop :=
  ∃ done, requests w = base ++ done ∧
    ∀ before s after e', done = before ++ s :: after →
      httpx_get (base ++ before) s = Raise e' →
      e' = e ∧ after = [] ∧ disk w !! (sha256_hexdigest s +:+ ".pickle") = None.

(** What an anchor of the page yields, in the words of the specification:
    nothing without an href, nothing when the href names another host,
    nothing when its path contains [@], and otherwise the URL of the page
    joined with the normalized path of the href. *)
Inductive anchor_yields (page : Page) (a : Tag) : list URL → Prop :=
  | yields_no_href :
      Tag_get "href" (attrs a) = None →
      anchor_yields page a []
  | yields_other_host s href h :
      Tag_get "href" (attrs a) = Some s →
      furl_furl s = Ok href →
      furl_host href = Some h →
      Some h ≠ URL_host (Page_url page) →
      anchor_yields page a []
  | yields_at s href :
      Tag_get "href" (attrs a) = Some s →
      furl_furl s = Ok href →
      Str.contains_at (furl_path href) = true →
      anchor_yields page a []
  | yields_link s href :
      Tag_get "href" (attrs a) = Some s →
      furl_furl s = Ok href →
      furl_host href = None ∨ furl_host href = URL_host (Page_url page) →
      Str.contains_at (furl_path href) = false →
      anchor_yields page a
        [URL_join_path (Page_url page)
           (pathlib.Path (furl_path.normalize (furl_path href)))].

(** The URL the report compares a page of the original site with: the
    host of the target site, the path of the page, and the scheme [https]. *)
Definition target_url_of (target : Site) (page : Page) : URL :=
  mkURL (URL_host (Site_url target)) (URL_path (Page_url page)) default_scheme.

(** The row of the report for a page and the page fetched for it. *)
Definition row_of (page target_page : Page) : Row := {|
  original := URL_furl_tostr (Page_url page);
  target := URL_furl_tostr (Page_url target_page);
  original_status_code := Page_status_code page;
  target_status_code := Page_status_code target_page;
  original_path := Path_str (URL_path (Page_url page));
  target_path := Path_str (URL_path (Page_url target_page));
|}.

(** The valid artifacts of [d] are in [d'], unchanged. *)
Definition disk_stable (d d' : gmap string File) : Prop :=
  ∀ name page, d !! name = Some (Pickled page) → d' !! name = Some (Pickled page).

(** Every URL the page links to is among [ks]. *)
Definition links_in (page : Page) (ks : list URL) : Prop :=
  ∀ urls, Page_get_urls page = Ok urls → ∀ url, url ∈ urls → url ∈ ks.

(** The page map holds every URL its pages link to. *)
Definition closed (d : dict) : Prop :=
  ∀ kv, kv ∈ d → links_in kv.2 (keys d).

(** What a completed call of [process_page] leaves: the map has grown, it
    holds the links of the page, and the links of every page added. *)
Definition expanded (site : Site) (page : Page) (site' : Site) : Prop :=
  ∃ added, Site_pages site' = Site_pages site ++ added ∧
    links_in page (keys (Site_pages site')) ∧
    ∀ kv, kv ∈ added → links_in kv.2 (keys (Site_pages site')).

(** From [w0] to [w] nothing was written to standard output, no valid
    artifact was changed or removed, and the requests and the log only
    grew. *)
Definition only_adds (w0 w : World) : Prop :=
  stdout w = stdout w0
  ∧ disk_stable (disk w0) (disk w)
  ∧ (∃ more, requests w = requests w0 ++ more)
  ∧ (∃ new, log w = log w0 ++ new).

(** The site [site'] is [site] with, possibly, more keys after its own. *)
Definition extends (site site' : Site) : Prop :=
  Site_url site' = Site_url site
  ∧ ∃ added, keys (Site_pages site') = keys (Site_pages site) ++ added.

(** The href of the anchor is parsed by [furl]. *)
Definition href_parses (a : Tag) : Prop :=
  ∀ s, Tag_get "href" (attrs a) = Some s → ∃ href, furl_furl s = Ok href.

(** The href of the anchor makes [furl] raise [e]. *)
Definition href_raises (a : Tag) (e : Exception) : Prop :=
  ∃ s, Tag_get "href" (attrs a) = Some s ∧ furl_furl s = Raise e.

(** [s if s.endswith("/") else s + "/"], lines 139 to 142 of [main]. *)
Definition with_slash (s : string) : string :=
  if negb (Str.endswith_slash s) then s +:+ "/" else s.

(** Every item of the page map is in the cache, under the file name of
    its key. *)
Definition on_disk (d : gmap string File) (pages : dict) : Prop :=
  ∀ kv, kv ∈ pages → d !! cache_path kv.1 = Some (Pickled kv.2).

(** From [w] to [w'] the cache was asked for the URLs [us], in that
    order, and each was fetched over the network, and nothing else
    happened: the requests sent are theirs, no other file has changed and
    nothing was printed. *)
Definition visits (us : list URL) (w w' : World) : Prop :=
  ∃ new, log w' = log w ++ new ∧ lookups new = us ∧ fetches new = us ∧
    requests w' = requests w ++ (URL_furl_tostr <$> us) ∧
    stdout w' = stdout w ∧
    ∀ name, name ∉ cache_path <$> us → disk w' !! name = disk w !! name.

(** The site [main] builds from a root that [furl] has parsed: the host of
    the root, its normalized path, and no page. *)
Definition root_site (f : Furl) : Site :=
  mkSite (URL_new (furl_host f) (pathlib.Path (furl_path.normalize (furl_path f)))) [].

End Vocabulary.

(** ** A small instance of the libraries

    Used to run the program on concrete sites: the digest is the identity,
    or a digest of bounded length, [tostr] numbers the triples, a document is its hrefs separated by
    blanks ([-] standing for an anchor without href), an href [//h/p] names
    the host [h], an href starting with [!] is rejected, and the server
    answers from a fixed table. *)

Module Toy.

Definition tostr (scheme : string) (host : option string) (path : string) : string :=
  pretty (encode (scheme, host, path)).

Fixpoint until_slash (s : string) : string * string :=
  match s with
  | EmptyString => (EmptyString, EmptyString)
  | String a s' =>
      if bool_decide (a = "/"%char) then (EmptyString, s)
      else let '(h, p) := until_slash s' in (String a h, p)
  end.

Definition furl (s : string) : result Furl :=
  if Str.startswith s "!" then Raise (ValueError s)
  else if Str.startswith s "//" then
    let '(h, p) := until_slash (Str.drop 2 s) in Ok (mkFurl (Some h) p)
  else Ok (mkFurl None s).

Definition anchors (content : string) : list Tag :=
  (λ w, if decide (w = "-") then mkTag [("class", "x")] else mkTag [("href", w)])
    <$> String.words content.

(** The server: a table from request to answer; no entry, no answer. *)
Fixpoint server (table : list (string * result Response)) (s : string)
    : result Response :=
  match table with
  | [] => Raise (HTTPError "ConnectError")
  | (k, r) :: table' => if decide (k = s) then r else server table' s
  end.

Definition libraries (table : list (string * result Response)) : Libraries := {|
  sha256_hexdigest := λ s, s;
  furl_tostr := tostr;
  furl_furl := furl;
  find_all_a := anchors;
  httpx_get := λ _, server table;
|}.

(** A digest of bounded length, as that of [sha256]: a text of at most 60
    characters is its own digest, and every longer text has the digest
    [overflow], so that the digest is not injective. *)
Definition bounded_digest (s : string) : string :=
  if bool_decide (String.length s ≤ 60) then s else "overflow".

(** The same libraries with that digest. *)
Definition bounded (table : list (string * result Response)) : Libraries := {|
  sha256_hexdigest := bounded_digest;
  furl_tostr := tostr;
  furl_furl := furl;
  find_all_a := anchors;
  httpx_get := λ _, server table;
|}.

Definition url (p : string) : URL := URL_new (Some "h") (pathlib.Path p).

Definition entry (p : string) (code : Z) (body : string)
    : string * result Response :=
  (tostr default_scheme (Some "h") (Path_str (pathlib.Path p)),
   Ok (mkResponse code body)).

Definition empty_world : World := mkWorld ∅ [] [] [].

(** Page [/a] links to [/b] and [/b] links back to [/a]. *)
Definition cycle : list (string * result Response) :=
  [entry "/a" 200 "/b /a"; entry "/b" 200 "/a /b"].

(** The same pages with the links in the other order. *)
Definition cycle_swapped : list (string * result Response) :=
  [entry "/a" 200 "/a /b"; entry "/b" 200 "/b /a"].

(** The root links to [/ok], to [/broken], for which the server gives no
    answer, and to [/later]. *)
Definition broken : list (string * result Response) :=
  [entry "/" 200 "/ok /broken /later"; entry "/ok" 200 ""; entry "/later" 200 ""].

Definition entry_on (host p : string) (code : Z) (body : string)
    : string * result Response :=
  (tostr default_scheme (Some host) (Path_str (pathlib.Path p)),
   Ok (mkResponse code body)).

(** The scenario of the specification: on the original host the root links
    to [/a] and [/b] and [/a] links to [/missing]; on the target host
    [/missing] is a 404. *)
Definition scenario : list (string * result Response) :=
  [entry "/" 200 "/a /b"; entry "/a" 200 "/missing"; entry "/b" 200 "";
   entry "/missing" 200 "";
   entry_on "t" "/" 200 ""; entry_on "t" "/a" 200 ""; entry_on "t" "/b" 200 "";
   entry_on "t" "/missing" 404 ""].

End Toy.

(** * Theorems *)

(** ** The cache, case by case *)

Section Cache.
Context `{Libraries}.
Implicit Types (w : World) (url : URL) (cache : PageCache).

Ltac run :=
  unfold PageCache_get_page, get_page, mkdir, mbind, M_bind, bind, mret, M_ret,
    ret, try_except, LOG, is_file, pickle_load, pickle_dump, unlink; simpl.

Ltac step Hk :=
  repeat (first [ rewrite Hk | rewrite lookup_delete_eq | rewrite lookup_insert_eq
                | match goal with Hg : httpx_get _ _ = _ |- _ => rewrite Hg end ];
          simpl).

(** A valid artifact is returned as it is; only the log grows. *)
Lemma PageCache_get_page_hit cache url w page :
  disk w !! cache_path url = Some (Pickled page) →
  PageCache_get_page cache url w =
    (Ok page,
     mkWorld (disk w) (requests w)
       (log w ++ [LogReading url (cache_path url)]) (stdout w)).
Proof.
  intros Hk. run. by step Hk.
Qed.

Lemma PageCache_get_page_miss cache url w response :
  is_miss (disk w !! cache_path url) →
  httpx_get (requests w) (URL_furl_tostr url) = Ok response →
  PageCache_get_page cache url w =
    (Ok (mkPage url response),
     mkWorld (<[cache_path url := Pickled (mkPage url response)]> (disk w))
       (requests w ++ [URL_furl_tostr url])
       (log w ++ miss_log url (disk w !! cache_path url)
              ++ [LogResponse url response; LogReading2 url (cache_path url)])
       (stdout w)).
Proof.
  intros [Hk|Hk] Hget; run; step Hk; rewrite ?insert_delete_eq;
    unfold miss_log; rewrite ?Hk; simpl; by rewrite <- ?app_assoc.
Qed.

Lemma PageCache_get_page_fail cache url w e :
  is_miss (disk w !! cache_path url) →
  httpx_get (requests w) (URL_furl_tostr url) = Raise e →
  PageCache_get_page cache url w =
    (Raise e,
     mkWorld (delete (cache_path url) (disk w))
       (requests w ++ [URL_furl_tostr url])
       (log w ++ miss_log url (disk w !! cache_path url))
       (stdout w)).
Proof.
  intros [Hk|Hk] Hget; run; step Hk; rewrite ?delete_id by done;
    unfold miss_log; rewrite ?Hk; simpl; by rewrite <- ?app_assoc.
Qed.

Lemma file_cases (f : option File) :
  (∃ page, f = Some (Pickled page)) ∨ is_miss f.
Proof. destruct f as [[page|]|]; unfold is_miss; eauto. Qed.

(** The three ways a call can go. *)
Lemma PageCache_get_page_inv cache url w r w' :
  PageCache_get_page cache url w = (r, w') →
  (∃ page, disk w !! cache_path url = Some (Pickled page) ∧ r = Ok page ∧
     w' = log_step (LogReading url (cache_path url)) w)
  ∨ (is_miss (disk w !! cache_path url) ∧
     ∃ response, httpx_get (requests w) (URL_furl_tostr url) = Ok response ∧
       r = Ok (mkPage url response) ∧
       w' = mkWorld (<[cache_path url := Pickled (mkPage url response)]> (disk w))
              (requests w ++ [URL_furl_tostr url])
              (log w ++ miss_log url (disk w !! cache_path url)
                 ++ [LogResponse url response; LogReading2 url (cache_path url)])
              (stdout w))
  ∨ (is_miss (disk w !! cache_path url) ∧
     ∃ e, httpx_get (requests w) (URL_furl_tostr url) = Raise e ∧
       r = Raise e ∧
       w' = mkWorld (delete (cache_path url) (disk w))
              (requests w ++ [URL_furl_tostr url])
              (log w ++ miss_log url (disk w !! cache_path url))
              (stdout w)).
Proof.
  intros Hrun.
  destruct (file_cases (disk w !! cache_path url)) as [[page Hk]|Hk].
  - rewrite (PageCache_get_page_hit _ _ _ _ Hk) in Hrun.
    inversion Hrun; subst. left. eauto.
  - destruct (httpx_get (requests w) (URL_furl_tostr url)) as [response|e] eqn:Hget.
    + rewrite (PageCache_get_page_miss _ _ _ _ Hk Hget) in Hrun.
      inversion Hrun; subst. right; left. eauto.
    + rewrite (PageCache_get_page_fail _ _ _ _ Hk Hget) in Hrun.
      inversion Hrun; subst. right; right. eauto.
Qed.

Lemma lookups_app l1 l2 : lookups (l1 ++ l2) = lookups l1 ++ lookups l2.
Proof. apply omap_app. Qed.

Lemma fetches_app l1 l2 : fetches (l1 ++ l2) = fetches l1 ++ fetches l2.
Proof. apply omap_app. Qed.

Lemma lookups_miss_log url f : lookups (miss_log url f) = [url].
Proof. by destruct f. Qed.

Lemma fetches_miss_log url f : fetches (miss_log url f) = [url].
Proof. by destruct f. Qed.

Lemma is_miss_not_cached d url : is_miss (d !! cache_path url) → ¬ cached d url.
Proof. intros [Hk|Hk] [page Hp]; congruence. Qed.

(** What a call adds to the log, and what it leaves on the disk. *)
Lemma PageCache_get_page_effect cache url w r w' :
  PageCache_get_page cache url w = (r, w') →
  ∃ new, log w' = log w ++ new ∧ lookups new = [url] ∧ stdout w' = stdout w ∧
    ((fetches new = [] ∧ disk w' = disk w ∧ requests w' = requests w ∧
      ∃ page, r = Ok page ∧ disk w !! cache_path url = Some (Pickled page))
     ∨ (fetches new = [url] ∧ ¬ cached (disk w) url ∧
        requests w' = requests w ++ [URL_furl_tostr url] ∧
        match r with
        | Ok page =>
            httpx_get (requests w) (URL_furl_tostr url) = Ok (Page_response page) ∧
            Page_url page = url ∧
            disk w' = <[cache_path url := Pickled page]> (disk w)
        | Raise e =>
            httpx_get (requests w) (URL_furl_tostr url) = Raise e ∧
            disk w' = delete (cache_path url) (disk w)
        end)).
Proof.
  intros Hrun. apply PageCache_get_page_inv in Hrun
    as [(page & Hk & -> & ->)|[(Hk & resp & Hget & -> & ->)|(Hk & e & Hget & -> & ->)]].
  - eexists. split; [reflexivity|]. split; [done|]. split; [done|]. left.
    repeat split; eauto.
  - eexists. split; [reflexivity|].
    rewrite lookups_app, fetches_app, lookups_miss_log, fetches_miss_log.
    split; [done|]. split; [done|]. right.
    repeat split; eauto using is_miss_not_cached.
  - eexists. split; [reflexivity|].
    rewrite lookups_miss_log, fetches_miss_log.
    split; [done|]. split; [done|]. right.
    repeat split; eauto using is_miss_not_cached.
Qed.

(** A call leaves the valid artifacts as they are, and the page it returns
    is in the cache under the file name of the URL asked for. *)
Lemma PageCache_get_page_stable cache url w r w' :
  PageCache_get_page cache url w = (r, w') →
  disk_stable (disk w) (disk w')
  ∧ ∀ page, r = Ok page → disk w' !! cache_path url = Some (Pickled page).
Proof.
  intros Hrun. apply PageCache_get_page_inv in Hrun
    as [(page & Hk & -> & ->)|[(Hk & resp & Hget & -> & ->)|(Hk & e & Hget & -> & ->)]];
    simpl.
  - split; [by intros ??|]. by intros ? [= <-].
  - split; [|intros ? [= <-]; apply lookup_insert_eq].
    intros name page Hname. rewrite lookup_insert_ne; [done|].
    intros <-. destruct Hk as [Hk|Hk]; congruence.
  - split; [|done].
    intros name page Hname. rewrite lookup_delete_ne; [done|].
    intros <-. destruct Hk as [Hk|Hk]; congruence.
Qed.

(** Among URLs that do not share a file name, the cache answers for the
    URL it is asked, and goes on doing so. *)
Lemma PageCache_get_page_answers cache urls url w r w' :
  collision_free_on urls →
  url ∈ urls →
  answers_for urls (disk w) →
  PageCache_get_page cache url w = (r, w') →
  answers_for urls (disk w')
  ∧ ∀ page, r = Ok page → Page_url page = url.
Proof.
  intros Hfree Hin Hd Hrun. apply PageCache_get_page_inv in Hrun
    as [(page & Hk & -> & ->)|[(Hk & resp & Hget & -> & ->)|(Hk & e & Hget & -> & ->)]];
    simpl.
  - split; [done|]. intros ? [= <-]. by eapply Hd.
  - split; [|by intros ? [= <-]].
    intros u stored Hu. rewrite lookup_insert. case_decide as Heq.
    + intros [= <-]. simpl. symmetry. by apply Hfree.
    + by apply Hd.
  - split; [|done].
    intros u stored Hu. rewrite lookup_delete. case_decide; [done|by apply Hd].
Qed.

End Cache.

(** ** Reasoning on monadic code *)

Lemma bind_inv {A B} (m : M A) (f : A → M B) w r w' :
  (m ≫= f) w = (r, w') →
  (∃ a w1, m w = (Ok a, w1) ∧ f a w1 = (r, w'))
  ∨ (∃ e, m w = (Raise e, w') ∧ r = Raise e).
Proof.
  unfold mbind, M_bind, bind. destruct (m w) as [[a|e] w1]; intros Hr.
  - left. eauto.
  - right. inversion Hr. eauto.
Qed.

Lemma bind_LOG {B} rec (f : unit → M B) w :
  (LOG rec ≫= f) w = f () (log_step rec w).
Proof. reflexivity. Qed.

Lemma bind_lift_inv {A B} (x : result A) (f : A → M B) w r w' :
  (lift x ≫= f) w = (r, w') →
  (∃ a, x = Ok a ∧ f a w = (r, w')) ∨ (∃ e, x = Raise e ∧ r = Raise e ∧ w' = w).
Proof.
  unfold mbind, M_bind, bind, lift. destruct x as [a|e]; intros Hr.
  - left. eauto.
  - right. inversion Hr. eauto.
Qed.

Lemma bind_ok {A B} (m : M A) (f : A → M B) w a w1 :
  m w = (Ok a, w1) → (m ≫= f) w = f a w1.
Proof. intros Hm. unfold mbind, M_bind, bind. by rewrite Hm. Qed.

Lemma bind_raise {A B} (m : M A) (f : A → M B) w e w1 :
  m w = (Raise e, w1) → (m ≫= f) w = (Raise e, w1).
Proof. intros Hm. unfold mbind, M_bind, bind. by rewrite Hm. Qed.

(** ** An invariant rule for the walk

    [I] holds of the site and the world between two steps of the walk, [J]
    of the exception and the world when the walk is left by an exception. *)

Section Rule.
Context `{Libraries}.
Variable cache : PageCache.
Variable I : Site → World → Prop.
Variable J : Exception → World → Prop.

Hypothesis I_log : ∀ site w r,
  walker_record r → I site w → I site (log_step r w).
Hypothesis I_raise : ∀ site w e, I site w → J e w.
Hypothesis I_fetch : ∀ site url w r w',
  I site w →
  dict_contains url (Site_pages site) = false →
  PageCache_get_page cache url w = (r, w') →
  match r with
  | Ok new_page =>
      I (mkSite (Site_url site)
           (dict_setitem (Page_url new_page) new_page (Site_pages site))) w'
  | Raise e => J e w'
  end.

Lemma process_page_rule depth : ∀ site page w r w',
  I site w →
  process_page depth site page cache w = (r, w') →
  match r with Ok site' => I site' w' | Raise e => J e w' end.
Proof.
  induction depth as [|depth IH]; intros site page w r w' HI Hrun.
  - inversion Hrun; subst. eauto.
  - simpl in Hrun. rewrite bind_LOG in Hrun.
    assert (HI1 : I site (log_step (LogProcessPage page) w))
      by (apply I_log; done).
    apply bind_lift_inv in Hrun as [(urls & _ & Hrun)|(e & _ & -> & ->)];
      [|by eauto].
    revert HI1 Hrun. generalize (log_step (LogProcessPage page) w).
    clear HI w. revert site.
    induction urls as [|url urls IHurls]; intros site w HI Hrun.
    + inversion Hrun; subst. done.
    + simpl in Hrun.
      assert (Hbody : ∀ r1 w1,
        (LOG (LogProcessing page url);;
         if negb (dict_contains url (Site_pages site)) then
           LOG (LogFetching url);;
           new_page ← PageCache_get_page cache url;
           process_page depth
             (mkSite (Site_url site)
                (dict_setitem (Page_url new_page) new_page (Site_pages site)))
             new_page cache
         else mret site) w = (r1, w1) →
        match r1 with Ok site1 => I site1 w1 | Raise e => J e w1 end).
      { intros r1 w1 Hbody. rewrite bind_LOG in Hbody.
        assert (HI2 : I site (log_step (LogProcessing page url) w))
          by (apply I_log; done).
        destruct (dict_contains url (Site_pages site)) eqn:Hin; simpl in Hbody.
        { inversion Hbody; subst. done. }
        rewrite bind_LOG in Hbody.
        apply bind_inv in Hbody as [(p & w2 & Hget & Hbody)|(e & Hget & ->)].
        - eapply I_fetch in Hget; [|by apply I_log|done].
          by apply (IH _ _ _ _ _ Hget) in Hbody.
        - eapply I_fetch in Hget; [|by apply I_log|done]. done. }
      apply bind_inv in Hrun as [(site1 & w1 & Hb & Hrun)|(e & Hb & ->)].
      * apply Hbody in Hb. by apply (IHurls site1 w1).
      * by apply Hbody in Hb.
Qed.

End Rule.

(** ** The invariant rule, with the page a link comes from

    As [process_page_rule], with a property [P] of the pages that are
    expanded: a fetch is for a link of such a page, and the page fetched
    has to be such a page. *)

Section RuleLinks.
Context `{Libraries}.
Variable cache : PageCache.
Variable I : Site → World → Prop.
Variable J : Exception → World → Prop.
Variable P : Page → Prop.

Hypothesis I_log : ∀ site w r,
  walker_record r → I site w → I site (log_step r w).
Hypothesis I_raise : ∀ site w e, I site w → J e w.
Hypothesis I_fetch : ∀ site page urls url w r w',
  P page → Page_get_urls page = Ok urls → url ∈ urls →
  I site w →
  dict_contains url (Site_pages site) = false →
  PageCache_get_page cache url w = (r, w') →
  match r with
  | Ok new_page =>
      P new_page ∧
      I (mkSite (Site_url site)
           (dict_setitem (Page_url new_page) new_page (Site_pages site))) w'
  | Raise e => J e w'
  end.

Lemma process_page_rule_links depth : ∀ site page w r w',
  P page → I site w →
  process_page depth site page cache w = (r, w') →
  match r with Ok site' => I site' w' | Raise e => J e w' end.
Proof.
  induction depth as [|depth IH]; intros site page w r w' HP HI Hrun.
  - inversion Hrun; subst. eauto.
  - simpl in Hrun. rewrite bind_LOG in Hrun.
    assert (HI1 : I site (log_step (LogProcessPage page) w))
      by (apply I_log; done).
    apply bind_lift_inv in Hrun as [(urls & Hurls & Hrun)|(e & _ & -> & ->)];
      [|by eauto].
    cut (∀ rest site0 w0 r0 w0',
      (∀ u, u ∈ rest → u ∈ urls) → I site0 w0 →
      for_each (λ site url,
        LOG (LogProcessing page url);;
        if negb (dict_contains url (Site_pages site)) then
          LOG (LogFetching url);;
          new_page ← PageCache_get_page cache url;
          process_page depth
            (mkSite (Site_url site)
               (dict_setitem (Page_url new_page) new_page (Site_pages site)))
            new_page cache
        else mret site) rest site0 w0 = (r0, w0') →
      match r0 with Ok site' => I site' w0' | Raise e => J e w0' end).
    { intros Hloop. by eapply (Hloop urls). }
    clear HI HI1 Hrun. clear site w r w'.
    induction rest as [|url rest IHrest]; intros site w r w' Hsub HI Hrun.
    + inversion Hrun; subst. done.
    + simpl in Hrun.
      assert (Hbody : ∀ r1 w1,
        (LOG (LogProcessing page url);;
         if negb (dict_contains url (Site_pages site)) then
           LOG (LogFetching url);;
           new_page ← PageCache_get_page cache url;
           process_page depth
             (mkSite (Site_url site)
                (dict_setitem (Page_url new_page) new_page (Site_pages site)))
             new_page cache
         else mret site) w = (r1, w1) →
        match r1 with Ok site1 => I site1 w1 | Raise e => J e w1 end).
      { intros r1 w1 Hbody. rewrite bind_LOG in Hbody.
        assert (HI2 : I site (log_step (LogProcessing page url) w))
          by (apply I_log; done).
        destruct (dict_contains url (Site_pages site)) eqn:Hin; simpl in Hbody.
        { inversion Hbody; subst. done. }
        rewrite bind_LOG in Hbody.
        assert (Hurl : url ∈ urls) by (apply Hsub, elem_of_cons; by left).
        apply bind_inv in Hbody as [(p & w2 & Hget & Hbody)|(e & Hget & ->)].
        - eapply (I_fetch _ _ _ _ _ _ _ HP Hurls Hurl) in Hget;
            [|by apply I_log|done].
          destruct Hget as [HPp HIp]. by apply (IH _ _ _ _ _ HPp HIp) in Hbody.
        - eapply (I_fetch _ _ _ _ _ _ _ HP Hurls Hurl) in Hget;
            [|by apply I_log|done]. done. }
      apply bind_inv in Hrun as [(site1 & w1 & Hb & Hrun)|(e & Hb & ->)].
      * apply Hbody in Hb. apply (IHrest site1 w1); [|done..].
        intros u Hu. apply Hsub, elem_of_cons. by right.
      * by apply Hbody in Hb.
Qed.

End RuleLinks.

(** ** The log of a walk

    The log only grows, so the URLs asked of the cache in a part of a run
    are among those asked in the whole run. *)

Lemma asked_app w w' new : log w' = log w ++ new → asked w w' = lookups new.
Proof. intros Hlog. unfold asked. by rewrite Hlog, drop_app_length. Qed.

Lemma asked_split w w1 w' :
  (∃ a, log w1 = log w ++ a) → (∃ b, log w' = log w1 ++ b) →
  asked w w' = asked w w1 ++ asked w1 w'.
Proof.
  intros [a Ha] [b Hb]. rewrite (asked_app w1 w' b), (asked_app w w1 a) by done.
  rewrite <- lookups_app. apply asked_app. by rewrite Hb, Ha, <- app_assoc.
Qed.

Section Growth.
Context `{Libraries}.
Variable cache : PageCache.

Local Abbreviation visit page depth :=
  (λ (site : Site) (url : URL),
     LOG (LogProcessing page url);;
     if negb (dict_contains url (Site_pages site)) then
       LOG (LogFetching url);;
       new_page ← PageCache_get_page cache url;
       process_page depth
         (mkSite (Site_url site)
            (dict_setitem (Page_url new_page) new_page (Site_pages site)))
         new_page cache
     else mret site).

Lemma PageCache_get_page_log url w r w' :
  PageCache_get_page cache url w = (r, w') →
  ∃ new, log w' = log w ++ new ∧ lookups new = [url].
Proof.
  intros Hrun. apply PageCache_get_page_effect in Hrun as (new & ? & ? & _). eauto.
Qed.

Lemma process_page_log depth site page w r w' :
  process_page depth site page cache w = (r, w') → ∃ new, log w' = log w ++ new.
Proof.
  intros Hrun.
  eapply (process_page_rule cache (λ _ w1, ∃ new, log w1 = log w ++ new)
            (λ _ w1, ∃ new, log w1 = log w ++ new)) in Hrun.
  - by destruct r.
  - intros _ w1 rec _ [new Hlog]. exists (new ++ [rec]). simpl.
    by rewrite Hlog, <- app_assoc.
  - done.
  - intros _ url w1 r1 w1' [new Hlog] _ Hget.
    apply PageCache_get_page_log in Hget as (gnew & Hlog' & _).
    assert (∃ new', log w1' = log w ++ new') as Hnew
      by (exists (new ++ gnew); by rewrite Hlog', Hlog, <- app_assoc).
    by destruct r1.
  - exists []. by rewrite app_nil_r.
Qed.

(** One turn of the loop of [process_page]: what it asks of the cache. *)
Lemma visit_asked page depth site url w r w' :
  visit page depth site url w = (r, w') →
  (∃ new, log w' = log w ++ new) ∧
  ((dict_contains url (Site_pages site) = true ∧ r = Ok site ∧
    w' = log_step (LogProcessing page url) w ∧ asked w w' = [])
   ∨ (dict_contains url (Site_pages site) = false ∧
      ∃ r1 w1,
        PageCache_get_page cache url
          (log_step (LogFetching url) (log_step (LogProcessing page url) w))
        = (r1, w1) ∧
        match r1 with
        | Ok new_page =>
            process_page depth
              (mkSite (Site_url site)
                 (dict_setitem (Page_url new_page) new_page (Site_pages site)))
              new_page cache w1 = (r, w') ∧
            asked w w' = url :: asked w1 w'
        | Raise e => r = Raise e ∧ w' = w1 ∧ asked w w' = [url]
        end)).
Proof.
  intros Hrun. cbv beta in Hrun. rewrite bind_LOG in Hrun.
  destruct (dict_contains url (Site_pages site)) eqn:Hin; simpl in Hrun.
  { inversion Hrun; subst. split; [by exists [LogProcessing page url]|].
    left. split; [done|]. split; [done|]. split; [done|].
    by rewrite (asked_app _ _ [LogProcessing page url]). }
  rewrite bind_LOG in Hrun.
  set (wa := log_step (LogFetching url) (log_step (LogProcessing page url) w)) in *.
  assert (Hwa : log wa = log w ++ [LogProcessing page url; LogFetching url])
    by (simpl; by rewrite <- app_assoc).
  apply bind_inv in Hrun as [(p & w2 & Hget & Hrun)|(e & Hget & ->)].
  - destruct (PageCache_get_page_log _ _ _ _ Hget) as (gnew & Hlog2 & Hl2).
    destruct (process_page_log _ _ _ _ _ _ Hrun) as [c Hc].
    assert (Hlog : log w' = log w ++ [LogProcessing page url; LogFetching url]
                            ++ gnew ++ c)
      by (by rewrite Hc, Hlog2, Hwa, <- !app_assoc).
    split; [by eexists|]. right. split; [done|]. exists (Ok p), w2.
    split; [done|]. split; [done|].
    rewrite (asked_app _ _ _ Hlog), (asked_app _ _ _ Hc).
    by rewrite !lookups_app, Hl2.
  - destruct (PageCache_get_page_log _ _ _ _ Hget) as (gnew & Hlog2 & Hl2).
    assert (Hlog : log w' = log w ++ [LogProcessing page url; LogFetching url] ++ gnew)
      by (by rewrite Hlog2, Hwa, <- !app_assoc).
    split; [by eexists|]. right. split; [done|]. exists (Raise e), w'.
    split; [done|]. split; [done|]. split; [done|].
    rewrite (asked_app _ _ _ Hlog). by rewrite !lookups_app, Hl2.
Qed.

Lemma links_loop_log page depth : ∀ rest site w r w',
  for_each (visit page depth) rest site w = (r, w') →
  ∃ new, log w' = log w ++ new.
Proof.
  induction rest as [|url rest IH]; intros site w r w' Hrun.
  - inversion Hrun; subst. exists []. by rewrite app_nil_r.
  - simpl in Hrun.
    apply bind_inv in Hrun as [(site1 & w1 & Hb & Hrun)|(e & Hb & ->)].
    + apply visit_asked in Hb as [[a Ha] _]. apply IH in Hrun as [b Hb].
      exists (a ++ b). by rewrite Hb, Ha, <- app_assoc.
    + by apply visit_asked in Hb as [? _].
Qed.

(** What a walk is made of: the call of the cache for the root, and the
    expansion of the root. *)
Lemma walk_site_inv depth site w r w' :
  walk_site depth site cache w = (r, w') →
  (∃ new, log w' = log w ++ new) ∧
  ∃ r1 w1,
    PageCache_get_page cache (Site_url site) (log_step (LogWalking site) w)
    = (r1, w1) ∧
    match r1 with
    | Ok root =>
        process_page depth
          (mkSite (Site_url site)
             (dict_setitem (Page_url root) root (Site_pages site)))
          root cache w1 = (r, w') ∧
        asked w w' = Site_url site :: asked w1 w'
    | Raise e => r = Raise e ∧ w' = w1 ∧ asked w w' = [Site_url site]
    end.
Proof.
  unfold walk_site. rewrite bind_LOG. intros Hrun.
  apply bind_inv in Hrun as [(root & w1 & Hget & Hrun)|(e & Hget & ->)].
  - destruct (PageCache_get_page_log _ _ _ _ Hget) as (gnew & Hlog1 & Hl1).
    destruct (process_page_log _ _ _ _ _ _ Hrun) as [c Hc].
    assert (Hlog : log w' = log w ++ [LogWalking site] ++ gnew ++ c)
      by (rewrite Hc, Hlog1; simpl; by rewrite <- !app_assoc).
    split; [by eexists|]. exists (Ok root), w1. split; [done|]. split; [done|].
    rewrite (asked_app _ _ _ Hlog), (asked_app _ _ _ Hc).
    by rewrite !lookups_app, Hl1.
  - destruct (PageCache_get_page_log _ _ _ _ Hget) as (gnew & Hlog1 & Hl1).
    assert (Hlog : log w' = log w ++ [LogWalking site] ++ gnew)
      by (rewrite Hlog1; simpl; by rewrite <- !app_assoc).
    split; [by eexists|]. exists (Raise e), w'. split; [done|].
    split; [done|]. split; [done|].
    rewrite (asked_app _ _ _ Hlog). by rewrite !lookups_app, Hl1.
Qed.

End Growth.

(** ** The invariant rule, among the URLs asked

    As [process_page_rule_links], for a run whose calls of the cache are all
    for URLs of [urls]: the step of a fetch may use that the URL asked for
    is one of them. *)

Section RuleOn.
Context `{Libraries}.
Variable cache : PageCache.
Variable urls : list URL.
Variable I : Site → World → Prop.
Variable J : Exception → World → Prop.
Variable P : Page → Prop.

Hypothesis I_log : ∀ site w r,
  walker_record r → I site w → I site (log_step r w).
Hypothesis I_raise : ∀ site w e, I site w → J e w.
Hypothesis I_fetch : ∀ site page links url w r w',
  url ∈ urls →
  P page → Page_get_urls page = Ok links → url ∈ links →
  I site w →
  dict_contains url (Site_pages site) = false →
  PageCache_get_page cache url w = (r, w') →
  match r with
  | Ok new_page =>
      P new_page ∧
      I (mkSite (Site_url site)
           (dict_setitem (Page_url new_page) new_page (Site_pages site))) w'
  | Raise e => J e w'
  end.

Lemma process_page_rule_on depth : ∀ site page w r w',
  P page → I site w →
  process_page depth site page cache w = (r, w') →
  asked w w' ⊆ urls →
  match r with Ok site' => I site' w' | Raise e => J e w' end.
Proof.
  induction depth as [|depth IH]; intros site page w r w' HP HI Hrun Hasked.
  - inversion Hrun; subst. eauto.
  - simpl in Hrun. rewrite bind_LOG in Hrun.
    assert (HI1 : I site (log_step (LogProcessPage page) w))
      by (apply I_log; done).
    apply bind_lift_inv in Hrun as [(links & Hlinks & Hrun)|(e & _ & -> & ->)];
      [|by eauto].
    assert (Hasked1 : asked (log_step (LogProcessPage page) w) w' ⊆ urls).
    { destruct (links_loop_log cache _ _ _ _ _ _ _ Hrun) as [b Hb].
      rewrite (asked_app _ _ b Hb).
      rewrite (asked_app w w' ([LogProcessPage page] ++ b)) in Hasked
        by (rewrite Hb; simpl; by rewrite <- app_assoc).
      by rewrite lookups_app in Hasked. }
    revert HI1 Hrun Hasked1. generalize (log_step (LogProcessPage page) w).
    clear HI Hasked w.
    assert (Hsub : links ⊆ links) by done. revert Hsub.
    generalize links at 1 3. revert site.
    intros site rest. revert site.
    induction rest as [|url rest IHrest]; intros site Hsub w HI Hrun Hasked.
    + inversion Hrun; subst. done.
    + simpl in Hrun.
      assert (Hurl : url ∈ links) by (apply Hsub, elem_of_cons; by left).
      assert (Hrest : rest ⊆ links)
        by (intros u Hu; apply Hsub, elem_of_cons; by right).
      assert (Hbody : ∀ r1 w1,
        (LOG (LogProcessing page url);;
         if negb (dict_contains url (Site_pages site)) then
           LOG (LogFetching url);;
           new_page ← PageCache_get_page cache url;
           process_page depth
             (mkSite (Site_url site)
                (dict_setitem (Page_url new_page) new_page (Site_pages site)))
             new_page cache
         else mret site) w = (r1, w1) →
        asked w w1 ⊆ urls →
        match r1 with Ok site1 => I site1 w1 | Raise e => J e w1 end).
      { intros r1 w1 Hb Hasked0.
        assert (HI2 : I site (log_step (LogFetching url)
                                (log_step (LogProcessing page url) w)))
          by (do 2 (apply I_log; [done|]); done).
        apply visit_asked in Hb
          as [_ [(_ & -> & -> & _)|(Hin & r2 & w2 & Hget & Hcase)]].
        { by apply I_log. }
        destruct r2 as [p|e].
        - destruct Hcase as [Hp Heq]. rewrite Heq in Hasked0.
          assert (Hu : url ∈ urls) by (apply Hasked0, elem_of_cons; by left).
          eapply (I_fetch _ _ _ _ _ _ _ Hu HP Hlinks Hurl) in Hget; [|done..].
          destruct Hget as [HPp HIp]. apply (IH _ _ _ _ _ HPp HIp Hp).
          intros u Hin'. apply Hasked0, elem_of_cons. by right.
        - destruct Hcase as (-> & -> & Heq). rewrite Heq in Hasked0.
          assert (Hu : url ∈ urls) by (apply Hasked0, elem_of_cons; by left).
          by eapply (I_fetch _ _ _ _ _ _ _ Hu HP Hlinks Hurl) in Hget. }
      apply bind_inv in Hrun as [(site1 & w1 & Hb & Hrun)|(e & Hb & ->)].
      * destruct (proj1 (visit_asked cache _ _ _ _ _ _ _ Hb)) as [a Ha].
        destruct (links_loop_log cache _ _ _ _ _ _ _ Hrun) as [b Hb'].
        rewrite (asked_split w w1 w') in Hasked by eauto.
        apply Hbody in Hb.
        2: { intros u Hu. apply Hasked, elem_of_app. by left. }
        apply (IHrest site1 Hrest w1); [done..|].
        intros u Hu. apply Hasked, elem_of_app. by right.
      * by apply Hbody in Hb.
Qed.

End RuleOn.

(** ** The page map *)

Lemma dict_contains_keys k d : dict_contains k d = true ↔ k ∈ keys d.
Proof. unfold dict_contains, keys. by rewrite bool_decide_eq_true. Qed.

Lemma dict_contains_false k d : dict_contains k d = false ↔ k ∉ keys d.
Proof. unfold dict_contains, keys. by rewrite bool_decide_eq_false. Qed.

Lemma keys_setitem_new k v d :
  dict_contains k d = false → keys (dict_setitem k v d) = keys d ++ [k].
Proof.
  intros Hk. unfold dict_setitem, keys. rewrite Hk. by rewrite fmap_app.
Qed.

Lemma keys_setitem_old k v d :
  dict_contains k d = true → keys (dict_setitem k v d) = keys d.
Proof.
  intros Hk. unfold dict_setitem, keys. rewrite Hk.
  rewrite <- list_fmap_compose. apply list_fmap_ext.
  intros i [k' v'] _. simpl. by case_decide.
Qed.

Lemma elem_of_keys_setitem k v d : k ∈ keys (dict_setitem k v d).
Proof.
  destruct (dict_contains k d) eqn:Hk.
  - rewrite keys_setitem_old by done. by apply dict_contains_keys.
  - rewrite keys_setitem_new by done. apply elem_of_app. right.
    by apply list_elem_of_singleton.
Qed.

Lemma keys_setitem_mono k k' v d : k' ∈ keys d → k' ∈ keys (dict_setitem k v d).
Proof.
  intros Hk'. destruct (dict_contains k d) eqn:Hk.
  - by rewrite keys_setitem_old.
  - rewrite keys_setitem_new by done. apply elem_of_app. by left.
Qed.

Lemma pages_keyed_setitem page d :
  pages_keyed d → pages_keyed (dict_setitem (Page_url page) page d).
Proof.
  unfold pages_keyed, dict_setitem. intros Hd.
  destruct (dict_contains _ _).
  - apply Forall_fmap. eapply Forall_impl; [done|].
    intros [k v] Hkv. simpl in *. by case_decide.
  - apply Forall_app. split; [done|]. by apply Forall_singleton.
Qed.

(** ** The walk fetches nothing twice *)

Section Walk.
Context `{Libraries}.
Variable cache : PageCache.

Lemma lookups_walker_record r : walker_record r → lookups [r] = [].
Proof. by destruct r. Qed.

Lemma fetches_walker_record r : walker_record r → fetches [r] = [].
Proof. by destruct r. Qed.

Lemma fetches_inv_exc base w : fetches_inv base w → fetches_exc base w.
Proof. intros (new & ? & ? & _). by exists new. Qed.

Lemma fetches_inv_log base w r :
  fetches [r] = [] → fetches_inv base w → fetches_inv base (log_step r w).
Proof.
  intros Hr (new & Hlog & Hnd & Hc). exists (new ++ [r]). simpl.
  rewrite Hlog, <- app_assoc, fetches_app, Hr, app_nil_r. done.
Qed.

Lemma cached_insert d url url' page :
  cached d url → cached (<[cache_path url' := Pickled page]> d) url.
Proof.
  intros [p Hp]. unfold cached. rewrite lookup_insert. case_decide; eauto.
Qed.

Lemma fetches_inv_get base url w r w' :
  fetches_inv base w →
  PageCache_get_page cache url w = (r, w') →
  match r with Ok _ => fetches_inv base w' | Raise _ => fetches_exc base w' end.
Proof.
  intros (new & Hlog & Hnd & Hc) Hrun.
  apply PageCache_get_page_effect in Hrun
    as (gnew & Hlog' & _ & _ & [(Hf & Hd & _ & page & -> & _)|(Hf & Hnc & _ & Hr)]).
  - exists (new ++ gnew).
    rewrite Hlog', Hlog, <- app_assoc, fetches_app, Hf, app_nil_r, Hd. done.
  - assert (Hnd' : NoDup (fetches (new ++ gnew))).
    { rewrite fetches_app, Hf. apply NoDup_app. split; [done|].
      split; [|apply NoDup_singleton].
      intros x Hx ->%list_elem_of_singleton. by apply Hnc, Hc. }
    destruct r as [page|e].
    + destruct Hr as (_ & _ & Hd). exists (new ++ gnew).
      rewrite Hlog', Hlog, <- app_assoc. split; [done|]. split; [done|].
      intros x. rewrite fetches_app, Hf, elem_of_app, list_elem_of_singleton, Hd.
      intros [Hx| ->].
      * by apply cached_insert, Hc.
      * exists page. by rewrite lookup_insert_eq.
    + exists (new ++ gnew). by rewrite Hlog', Hlog, <- app_assoc.
Qed.

Lemma process_page_fetches base depth site page w r w' :
  fetches_inv base w →
  process_page depth site page cache w = (r, w') →
  fetches_exc base w'.
Proof.
  intros Hinv Hrun.
  eapply (process_page_rule cache (λ _, fetches_inv base) (λ _, fetches_exc base))
    in Hrun; [| | | |exact Hinv].
  - destruct r; [by apply fetches_inv_exc|done].
  - intros _ w0 rec Hrec. apply fetches_inv_log. by apply fetches_walker_record.
  - intros _ w0 _. apply fetches_inv_exc.
  - intros _ url w0 r0 w0' Hinv0 _ Hget. by eapply fetches_inv_get.
Qed.

Lemma walk_site_fetches depth site w r w' :
  walk_site depth site cache w = (r, w') → fetches_exc (log w) w'.
Proof.
  unfold walk_site. rewrite bind_LOG. intros Hrun.
  assert (Hinv : fetches_inv (log w) (log_step (LogWalking site) w)).
  { apply fetches_inv_log; [done|]. exists []. rewrite app_nil_r.
    split; [done|]. split; [apply NoDup_nil_2|]. by intros ? ?%elem_of_nil. }
  apply bind_inv in Hrun as [(root & w1 & Hget & Hrun)|(e & Hget & ->)].
  - eapply fetches_inv_get in Hget; [|done]. by eapply process_page_fetches.
  - by eapply fetches_inv_get in Hget.
Qed.

(** The same for the calls of the cache, in a run that asks for URLs of
    [urls] only, no two of which share a file name. *)
Variable urls : list URL.
Hypothesis Hfree : collision_free_on urls.

Lemma lookups_inv_exc base keys1 site e w :
  lookups_inv urls base keys1 site w → lookups_exc base keys1 e w.
Proof. intros (_ & new & ? & _ & ? & ?). by exists new. Qed.

Lemma lookups_inv_log base keys1 site w r :
  walker_record r →
  lookups_inv urls base keys1 site w →
  lookups_inv urls base keys1 site (log_step r w).
Proof.
  intros Hr (Hd & new & Hlog & Hkeys & Hnd & Hk). split; [done|].
  exists (new ++ [r]). simpl.
  rewrite Hlog, <- app_assoc, lookups_app, lookups_walker_record, app_nil_r by done.
  done.
Qed.

Lemma lookups_inv_get base keys1 site url w r w' :
  url ∈ urls →
  lookups_inv urls base keys1 site w →
  dict_contains url (Site_pages site) = false →
  PageCache_get_page cache url w = (r, w') →
  match r with
  | Ok new_page =>
      Page_url new_page = url ∧
      lookups_inv urls base keys1
        (mkSite (Site_url site)
           (dict_setitem (Page_url new_page) new_page (Site_pages site))) w'
  | Raise e => lookups_exc base keys1 e w'
  end.
Proof.
  intros Hu (Hd & new & Hlog & Hkeys & Hnd & Hk) Hin Hrun.
  destruct (PageCache_get_page_answers _ _ _ _ _ _ Hfree Hu Hd Hrun) as [Hd' Hurl].
  apply PageCache_get_page_effect in Hrun as (gnew & Hlog' & Hl & _).
  apply dict_contains_false in Hin as Hnotin.
  rewrite Hkeys in Hnotin. apply not_elem_of_app in Hnotin as [Hn1 Hn2].
  assert (Hnd' : NoDup (lookups (new ++ gnew))).
  { rewrite lookups_app, Hl. apply NoDup_app. split; [done|].
    split; [|apply NoDup_singleton].
    by intros x Hx ->%list_elem_of_singleton. }
  assert (Hk' : ∀ x, x ∈ lookups (new ++ gnew) → x ∉ keys1).
  { intros x. rewrite lookups_app, Hl, elem_of_app, list_elem_of_singleton.
    intros [Hx| ->]; [by apply Hk|done]. }
  destruct r as [page|e].
  - assert (Page_url page = url) as -> by (by apply Hurl).
    split; [done|]. split; [done|]. exists (new ++ gnew). simpl.
    rewrite keys_setitem_new, Hkeys, Hlog', Hlog, <- !app_assoc by done.
    repeat split; try done. by rewrite lookups_app, Hl.
  - exists (new ++ gnew). by rewrite Hlog', Hlog, <- app_assoc.
Qed.

Lemma process_page_lookups base keys1 depth site page w r w' :
  lookups_inv urls base keys1 site w →
  process_page depth site page cache w = (r, w') →
  asked w w' ⊆ urls →
  match r with
  | Ok site' => lookups_inv urls base keys1 site' w'
  | Raise e => lookups_exc base keys1 e w'
  end.
Proof.
  intros Hinv Hrun Hasked.
  eapply (process_page_rule_on cache urls (lookups_inv urls base keys1)
            (lookups_exc base keys1) (λ _, True));
    [| | |done|exact Hinv|exact Hrun|exact Hasked].
  - intros. by apply lookups_inv_log.
  - intros. by eapply lookups_inv_exc.
  - intros site0 page0 links url w0 r0 w0' Hu _ _ _ Hinv0 Hin Hget.
    eapply lookups_inv_get in Hget; [|done..].
    destruct r0; [by destruct Hget|done].
Qed.

End Walk.

(** ** The walk leaves nothing unvisited *)

Lemma dict_setitem_new k v d :
  dict_contains k d = false → dict_setitem k v d = d ++ [(k, v)].
Proof. intros Hk. unfold dict_setitem. by rewrite Hk. Qed.

Lemma links_in_mono `{Libraries} page ks ks' :
  links_in page ks → (∀ url, url ∈ ks → url ∈ ks') → links_in page ks'.
Proof. intros Hl Hsub urls Hurls url Hin. by eapply Hsub, Hl. Qed.

Lemma keys_app d1 d2 : keys (d1 ++ d2) = keys d1 ++ keys d2.
Proof. apply fmap_app. Qed.

Section Closure.
Context `{Libraries}.
Variable cache : PageCache.
Variable urls : list URL.
Hypothesis Hfree : collision_free_on urls.

Lemma process_page_expanded depth : ∀ site page w site' w',
  answers_for urls (disk w) →
  process_page depth site page cache w = (Ok site', w') →
  asked w w' ⊆ urls →
  answers_for urls (disk w') ∧ expanded site page site'.
Proof.
  induction depth as [|depth IH]; intros site page w site' w' Hd Hrun Hasked;
    [done|].
  simpl in Hrun. rewrite bind_LOG in Hrun.
  apply bind_lift_inv in Hrun as [(links & Hlinks & Hrun)|(e & _ & ? & _)]; [|done].
  assert (Hd0 : answers_for urls (disk (log_step (LogProcessPage page) w)))
    by exact Hd.
  assert (Hasked1 : asked (log_step (LogProcessPage page) w) w' ⊆ urls).
  { destruct (links_loop_log cache _ _ _ _ _ _ _ Hrun) as [b Hb].
    rewrite (asked_app _ _ b Hb).
    rewrite (asked_app w w' ([LogProcessPage page] ++ b)) in Hasked
      by (rewrite Hb; simpl; by rewrite <- app_assoc).
    by rewrite lookups_app in Hasked. }
  assert (Hloop : answers_for urls (disk w') ∧
    ∃ added, Site_pages site' = Site_pages site ++ added ∧
      (∀ url, url ∈ links → url ∈ keys (Site_pages site')) ∧
      ∀ kv, kv ∈ added → links_in kv.2 (keys (Site_pages site'))).
  { revert Hd0 Hrun Hasked1. generalize (log_step (LogProcessPage page) w).
    clear Hd w Hlinks Hasked. revert site.
    induction links as [|url links IHlinks]; intros site w Hd Hrun Hasked.
    - inversion Hrun; subst. split; [done|]. exists []. rewrite app_nil_r.
      split; [done|]. split; by intros ? ?%elem_of_nil.
    - simpl in Hrun.
      apply bind_inv in Hrun as [(site1 & w1 & Hbody & Hrun)|(e & _ & ?)]; [|done].
      destruct (proj1 (visit_asked cache _ _ _ _ _ _ _ Hbody)) as [a Ha].
      destruct (links_loop_log cache _ _ _ _ _ _ _ Hrun) as [b Hb].
      rewrite (asked_split w w1 w') in Hasked by eauto.
      assert (Hasked_a : asked w w1 ⊆ urls)
        by (intros u Hu; apply Hasked, elem_of_app; by left).
      assert (Hasked_b : asked w1 w' ⊆ urls)
        by (intros u Hu; apply Hasked, elem_of_app; by right).
      apply visit_asked in Hbody
        as [_ [(Hin & [= <-] & -> & _)|(Hin & r2 & w2 & Hget & Hcase)]].
      + apply IHlinks in Hrun as (Hd' & added & Hpages & Hlinks & Hadded);
          [|done..].
        split; [done|]. exists added. split; [done|]. split; [|done].
        intros u [->|Hu]%elem_of_cons; [|by apply Hlinks].
        rewrite Hpages, keys_app. apply elem_of_app. left.
        by apply dict_contains_keys.
      + destruct r2 as [new_page|e]; [|by destruct Hcase as ([=] & _)].
        destruct Hcase as [Hp Heq]. rewrite Heq in Hasked_a.
        assert (Hu : url ∈ urls) by (apply Hasked_a, elem_of_cons; by left).
        assert (Hd2 : answers_for urls
                        (disk (log_step (LogFetching url)
                                 (log_step (LogProcessing page url) w))))
          by exact Hd.
        destruct (PageCache_get_page_answers _ _ _ _ _ _ Hfree Hu Hd2 Hget)
          as [Hd3 Hurl].
        assert (Page_url new_page = url) as Hnew by (by apply Hurl).
        rewrite Hnew, dict_setitem_new in Hp by done.
        apply IH in Hp as (Hd4 & added1 & Hpages1 & Hlinks1 & Hadded1); [|done|].
        2: { intros u Hin'. apply Hasked_a, elem_of_cons. by right. }
        simpl in Hpages1.
        apply IHlinks in Hrun as (Hd' & added2 & Hpages2 & Hlinks2 & Hadded2);
          [|done..].
        assert (Hmono : ∀ u, u ∈ keys (Site_pages site1) → u ∈ keys (Site_pages site')).
        { intros u Hu'. rewrite Hpages2, keys_app. apply elem_of_app. by left. }
        split; [done|].
        exists ([(url, new_page)] ++ added1 ++ added2).
        split. { rewrite Hpages2, Hpages1. by rewrite <- !app_assoc. }
        split.
        * intros u [->|Hu']%elem_of_cons; [|by apply Hlinks2].
          apply Hmono. rewrite Hpages1, !keys_app. apply elem_of_app. left.
          apply elem_of_app. right. by apply list_elem_of_singleton.
        * intros kv [->%list_elem_of_singleton|[Hkv|Hkv]%elem_of_app]%elem_of_app.
          -- by eapply links_in_mono.
          -- eapply links_in_mono; [by apply Hadded1|done].
          -- by apply Hadded2. }
  destruct Hloop as (Hd' & added & Hpages & Hlinks' & Hadded).
  split; [done|]. exists added. split; [done|]. split; [|done].
  intros links' Hlinks'' url Hin. rewrite Hlinks in Hlinks''.
  inversion Hlinks''; subst. by apply Hlinks'.
Qed.

(** A completed walk that started with an empty map ends with a map that
    holds the root and is closed under the links of its pages. *)
Lemma walk_site_closed depth site w site' w' :
  answers_for urls (disk w) →
  Site_pages site = [] →
  walk_site depth site cache w = (Ok site', w') →
  asked w w' ⊆ urls →
  Site_url site ∈ keys (Site_pages site') ∧ closed (Site_pages site').
Proof.
  intros Hd Hempty Hrun Hasked.
  apply walk_site_inv in Hrun as [_ (r1 & w1 & Hget & Hcase)].
  destruct r1 as [root|e]; [|by destruct Hcase as ([=] & _)].
  destruct Hcase as [Hrun Heq]. rewrite Heq in Hasked.
  assert (Hu : Site_url site ∈ urls) by (apply Hasked, elem_of_cons; by left).
  assert (Hd0 : answers_for urls (disk (log_step (LogWalking site) w))) by exact Hd.
  destruct (PageCache_get_page_answers _ _ _ _ _ _ Hfree Hu Hd0 Hget) as [Hd1 Hurl].
  assert (Page_url root = Site_url site) as Hroot by (by apply Hurl).
  rewrite Hroot, Hempty in Hrun.
  apply process_page_expanded in Hrun as (_ & added & Hpages & Hlinks & Hadded);
    [|done|].
  2: { intros u Hin'. apply Hasked, elem_of_cons. by right. }
  change (Site_pages site' = (Site_url site, root) :: added) in Hpages.
  split.
  - rewrite Hpages. apply elem_of_cons. by left.
  - intros kv Hkv. rewrite Hpages in Hkv.
    apply elem_of_cons in Hkv as [->|Hkv]; [done|by apply Hadded].
Qed.

End Closure.

(** The calls of the cache during a walk that asks for URLs of [urls]
    only, no two of which share a file name. *)
Lemma walk_site_lookups `{Libraries} depth site cache urls w r w' :
  collision_free_on urls →
  answers_for urls (disk w) →
  walk_site depth site cache w = (r, w') →
  asked w w' ⊆ urls →
  ∃ new, log w' = log w ++ new ∧ NoDup (lookups new) ∧ NoDup (fetches new) ∧
    head (lookups new) = Some (Site_url site) ∧
    match r with
    | Ok site' =>
        answers_for urls (disk w') ∧
        (∀ url, url ∈ lookups new → url ∈ keys (Site_pages site')) ∧
        (Site_pages site = [] → keys (Site_pages site') = lookups new)
    | Raise _ => True
    end.
Proof.
  intros Hfree Hd Hrun Hasked.
  destruct (walk_site_fetches _ _ _ _ _ _ Hrun) as (new & Hlog & Hndf).
  exists new. split; [done|]. rewrite <- (asked_app _ _ _ Hlog).
  apply walk_site_inv in Hrun as [_ (r1 & w1 & Hget & Hcase)].
  assert (Hd0 : answers_for urls (disk (log_step (LogWalking site) w)))
    by exact Hd.
  destruct r1 as [root|e].
  - destruct Hcase as [Hrun Heq]. rewrite Heq in Hasked. rewrite Heq.
    assert (Hu : Site_url site ∈ urls) by (apply Hasked, elem_of_cons; by left).
    assert (Hasked1 : asked w1 w' ⊆ urls)
      by (intros u Hin; apply Hasked, elem_of_cons; by right).
    destruct (PageCache_get_page_answers _ _ _ _ _ _ Hfree Hu Hd0 Hget)
      as [Hd1 Hurl].
    assert (Hroot : Page_url root = Site_url site) by (by apply Hurl).
    rewrite Hroot in Hrun.
    set (pages1 := dict_setitem (Site_url site) root (Site_pages site)) in *.
    eapply (process_page_lookups cache urls Hfree (log w1) (keys pages1)) in Hrun;
      [| |exact Hasked1].
    2: { split; [done|]. exists []. rewrite !app_nil_r.
         split; [done|]. split; [done|]. split; [apply NoDup_nil_2|].
         by intros ? ?%elem_of_nil. }
    assert (Hnd : ∀ new1, NoDup (lookups new1) →
      (∀ url, url ∈ lookups new1 → url ∉ keys pages1) →
      NoDup (Site_url site :: lookups new1)).
    { intros new1 Hnd Hk. apply NoDup_cons. split; [|done].
      intros Hin. apply (Hk _ Hin). apply elem_of_keys_setitem. }
    destruct r as [site'|e].
    + destruct Hrun as (Hd' & new1 & Hlog' & Hkeys & Hnd' & Hk).
      rewrite (asked_app _ _ _ Hlog').
      split; [by apply Hnd|]. split; [done|]. split; [done|]. split; [done|].
      split.
      * intros url [->|Hin]%elem_of_cons; rewrite Hkeys; apply elem_of_app.
        -- left. apply elem_of_keys_setitem.
        -- by right.
      * intros Hempty. rewrite Hkeys. unfold pages1. by rewrite Hempty.
    + destruct Hrun as (new1 & Hlog' & Hnd' & Hk).
      rewrite (asked_app _ _ _ Hlog').
      split; [by apply Hnd|]. done.
  - destruct Hcase as (-> & -> & Heq). rewrite Heq.
    split; [apply NoDup_singleton|]. done.
Qed.

(** ** Two pages that link to each other *)

Lemma for_each_app {A S} (body : S → A → M S) pre rest acc w acc1 w1 :
  for_each body pre acc w = (Ok acc1, w1) →
  for_each body (pre ++ rest) acc w = for_each body rest acc1 w1.
Proof.
  revert acc w. induction pre as [|x pre IH]; intros acc w Hrun.
  - by inversion Hrun.
  - simpl in *.
    apply bind_inv in Hrun as [(acc2 & w2 & Hb & Hrun)|(e & _ & [=])].
    rewrite (bind_ok _ _ _ _ _ Hb). by apply IH.
Qed.

Section Visits.
Context `{Libraries}.
Variable cache : PageCache.

Local Abbreviation visit page depth :=
  (λ (site : Site) (url : URL),
     LOG (LogProcessing page url);;
     if negb (dict_contains url (Site_pages site)) then
       LOG (LogFetching url);;
       new_page ← PageCache_get_page cache url;
       process_page depth
         (mkSite (Site_url site)
            (dict_setitem (Page_url new_page) new_page (Site_pages site)))
         new_page cache
     else mret site).

Lemma visits_refl w : visits [] w w.
Proof.
  exists []. rewrite !app_nil_r. by repeat split.
Qed.

Lemma visits_step r w :
  lookups [r] = [] → fetches [r] = [] → visits [] w (log_step r w).
Proof.
  intros Hl Hf. exists [r]. simpl. rewrite app_nil_r. done.
Qed.

Lemma visits_log r w : walker_record r → visits [] w (log_step r w).
Proof.
  intros Hr. apply visits_step.
  - by apply lookups_walker_record.
  - by apply fetches_walker_record.
Qed.

Lemma visits_trans us1 us2 w w1 w2 :
  visits us1 w w1 → visits us2 w1 w2 → visits (us1 ++ us2) w w2.
Proof.
  intros (n1 & Hl1 & Hk1 & Hf1 & Hr1 & Ho1 & Hd1)
         (n2 & Hl2 & Hk2 & Hf2 & Hr2 & Ho2 & Hd2).
  exists (n1 ++ n2). rewrite Hl2, Hl1, lookups_app, fetches_app, Hk1, Hk2, Hf1, Hf2.
  rewrite Hr2, Hr1, Ho2, Ho1, fmap_app, <- !app_assoc.
  repeat split. intros name Hname. rewrite fmap_app, elem_of_app in Hname.
  rewrite Hd2, Hd1; [done|tauto..].
Qed.

(** A miss that the network answers. *)
Lemma visits_miss url w response :
  is_miss (disk w !! cache_path url) →
  httpx_get (requests w) (URL_furl_tostr url) = Ok response →
  ∃ w', PageCache_get_page cache url w = (Ok (mkPage url response), w') ∧
    visits [url] w w' ∧
    disk w' !! cache_path url = Some (Pickled (mkPage url response)).
Proof.
  intros Hmiss Hget. eexists. split; [by apply PageCache_get_page_miss|].
  split; [|apply lookup_insert_eq].
  eexists. split; [reflexivity|]. cbn [disk requests stdout].
  rewrite lookups_app, fetches_app, lookups_miss_log, fetches_miss_log.
  repeat split. intros name Hname. rewrite lookup_insert_ne; [done|].
  intros <-. apply Hname. apply elem_of_cons. by left.
Qed.

(** Links that are all keys of the map already: nothing is asked. *)
Lemma known_links_quiet page depth : ∀ links site w,
  links ⊆ keys (Site_pages site) →
  ∃ w', for_each (visit page depth) links site w = (Ok site, w') ∧ visits [] w w'.
Proof.
  induction links as [|url links IH]; intros site w Hsub.
  - exists w. split; [done|apply visits_refl].
  - assert (Hin : dict_contains url (Site_pages site) = true)
      by (apply dict_contains_keys, Hsub, elem_of_cons; by left).
    destruct (IH site (log_step (LogProcessing page url) w)) as (w' & Hrun & Hv).
    { intros u Hu. apply Hsub, elem_of_cons. by right. }
    exists w'. split.
    + assert (Hturn : visit page depth site url w
                      = (Ok site, log_step (LogProcessing page url) w)).
      { cbv beta. by rewrite bind_LOG, Hin. }
      change (for_each (visit page depth) (url :: links) site w)
        with ((visit page depth site url
               ≫= λ acc', for_each (visit page depth) links acc') w).
      rewrite (bind_ok _ _ _ _ _ Hturn). exact Hrun.
    + apply (visits_trans [] [] _ _ _ (visits_log (LogProcessing page url) w I) Hv).
Qed.

Lemma process_page_known depth site page links w :
  Page_get_urls page = Ok links →
  links ⊆ keys (Site_pages site) →
  ∃ w', process_page (S depth) site page cache w = (Ok site, w') ∧ visits [] w w'.
Proof.
  intros Hlinks Hsub.
  destruct (known_links_quiet page depth links site
              (log_step (LogProcessPage page) w) Hsub) as (w' & Hrun & Hv).
  exists w'. split.
  - simpl. rewrite bind_LOG. unfold mbind at 1, M_bind at 1, bind at 1, lift.
    rewrite Hlinks. exact Hrun.
  - apply (visits_trans [] [] _ _ _ (visits_log (LogProcessPage page) w I) Hv).
Qed.

Variables (A B : URL) (rA rB : Response) (linksA linksB : list URL).
Hypothesis HAB : A ≠ B.
Hypothesis HlinksA : Page_get_urls (mkPage A rA) = Ok linksA.
Hypothesis HlinksB : Page_get_urls (mkPage B rB) = Ok linksB.
Hypothesis HsubA : linksA ⊆ [A; B].
Hypothesis HsubB : linksB ⊆ [A; B].

(** The loop over the links of [A], when [B] is one of them and the map
    holds [A] only. *)
Lemma cycle_links_loop depth links w :
  B ∈ links → links ⊆ [A; B] →
  is_miss (disk w !! cache_path B) →
  httpx_get (requests w) (URL_furl_tostr B) = Ok rB →
  ∃ w',
    for_each (visit (mkPage A rA) (S depth)) links
      (mkSite A [(A, mkPage A rA)]) w
    = (Ok (mkSite A [(A, mkPage A rA); (B, mkPage B rB)]), w')
    ∧ visits [B] w w'.
Proof.
  intros HB Hsub Hmiss Hget.
  set (siteA := mkSite A [(A, mkPage A rA)]).
  set (siteAB := mkSite A [(A, mkPage A rA); (B, mkPage B rB)]).
  apply list_elem_of_split_l in HB as (pre & post & -> & Hpre).
  assert (Hpre' : pre ⊆ keys (Site_pages siteA)).
  { intros u Hu.
    assert (Hu' : u ∈ [A; B]) by (apply Hsub, elem_of_app; by left).
    apply elem_of_cons in Hu' as [->|Hu']; [by apply elem_of_cons; left|].
    apply list_elem_of_singleton in Hu' as ->. done. }
  assert (Hpost : post ⊆ keys (Site_pages siteAB)).
  { intros u Hu. apply Hsub, elem_of_app. right. apply elem_of_cons. by right. }
  assert (HsubB' : linksB ⊆ keys (Site_pages siteAB)) by exact HsubB.
  destruct (known_links_quiet (mkPage A rA) (S depth) pre siteA w Hpre')
    as (w1 & Hrun1 & Hv1).
  set (wa := log_step (LogFetching B) (log_step (LogProcessing (mkPage A rA) B) w1)).
  assert (Hva : visits [] w1 wa).
  { apply (visits_trans [] [] _ _ _
             (visits_log (LogProcessing (mkPage A rA) B) w1 I)).
    by apply visits_log. }
  pose proof (visits_trans [] [] _ _ _ Hv1 Hva) as Hv.
  destruct Hv as (n & _ & _ & _ & Hreq & _ & Hdisk).
  change (requests wa = requests w ++ []) in Hreq. rewrite app_nil_r in Hreq.
  assert (Hmiss' : is_miss (disk wa !! cache_path B))
    by (rewrite Hdisk by (by intros ?%elem_of_nil); done).
  assert (Hget' : httpx_get (requests wa) (URL_furl_tostr B) = Ok rB)
    by (by rewrite Hreq).
  destruct (visits_miss B wa rB Hmiss' Hget') as (w2 & Hgp & Hv2 & _).
  destruct (process_page_known depth siteAB (mkPage B rB) linksB w2 HlinksB HsubB')
    as (w3 & Hrun3 & Hv3).
  destruct (known_links_quiet (mkPage A rA) (S depth) post siteAB w3 Hpost)
    as (w4 & Hrun4 & Hv4).
  assert (HnotB : dict_contains B (Site_pages siteA) = false).
  { apply dict_contains_false. intros [->|Hin]%elem_of_cons; [done|].
    by apply elem_of_nil in Hin. }
  exists w4. split.
  - rewrite (for_each_app _ _ _ _ _ _ _ Hrun1).
    change (for_each (visit (mkPage A rA) (S depth)) (B :: post) siteA w1)
      with ((visit (mkPage A rA) (S depth) siteA B
             ≫= λ acc', for_each (visit (mkPage A rA) (S depth)) post acc') w1).
    assert (Hturn : visit (mkPage A rA) (S depth) siteA B w1 = (Ok siteAB, w3)).
    { cbv beta. rewrite bind_LOG, HnotB. cbn [negb]. rewrite bind_LOG.
      fold wa. rewrite (bind_ok _ _ _ _ _ Hgp).
      cbn [Page_url]. rewrite dict_setitem_new by exact HnotB. exact Hrun3. }
    rewrite (bind_ok _ _ _ _ _ Hturn). exact Hrun4.
  - apply (visits_trans [] [B] _ _ _ Hv1).
    apply (visits_trans [] [B] _ _ _ Hva).
    apply (visits_trans [B] [] _ _ _ Hv2).
    apply (visits_trans [] [] _ _ _ Hv3 Hv4).
Qed.

(** The walk from [A], with a cache that holds neither page and a network
    that answers for both. *)
Lemma walk_two_pages depth w :
  B ∈ linksA →
  cache_path A ≠ cache_path B →
  is_miss (disk w !! cache_path A) →
  is_miss (disk w !! cache_path B) →
  httpx_get (requests w) (URL_furl_tostr A) = Ok rA →
  httpx_get (requests w ++ [URL_furl_tostr A]) (URL_furl_tostr B) = Ok rB →
  ∃ w',
    walk_site (S (S depth)) (mkSite A []) cache w
    = (Ok (mkSite A [(A, mkPage A rA); (B, mkPage B rB)]), w')
    ∧ visits [A; B] w w'.
Proof.
  intros HB Hpath HmissA HmissB HgetA HgetB.
  set (site0 := mkSite A []).
  set (w0 := log_step (LogWalking site0) w).
  destruct (visits_miss A w0 rA HmissA HgetA) as (w1 & Hgp & Hv1 & _).
  set (w1' := log_step (LogProcessPage (mkPage A rA)) w1).
  assert (Hv01 : visits [A] w w1').
  { apply (visits_trans [] [A] w w0); [by apply visits_step|].
    apply (visits_trans [A] [] _ _ _ Hv1). by apply visits_log. }
  destruct Hv01 as (n & Hlog & Hk & Hf & Hreq & Hout & Hdisk).
  assert (HmissB' : is_miss (disk w1' !! cache_path B)).
  { rewrite Hdisk; [done|]. intros Hin. apply list_elem_of_singleton in Hin.
    by apply Hpath. }
  assert (HgetB' : httpx_get (requests w1') (URL_furl_tostr B) = Ok rB)
    by (by rewrite Hreq).
  destruct (cycle_links_loop depth linksA w1' HB HsubA HmissB' HgetB')
    as (w' & Hloop & Hv2).
  exists w'. split.
  - unfold walk_site. rewrite bind_LOG. fold w0.
    rewrite (bind_ok _ _ _ _ _ Hgp). cbn [Page_url Site_url Site_pages site0].
    rewrite dict_setitem_new
      by (apply dict_contains_false; by intros ?%elem_of_nil).
    cbn [app]. simpl process_page. rewrite bind_LOG. fold w1'.
    unfold mbind at 1, M_bind at 1, bind at 1, lift. rewrite HlinksA.
    exact Hloop.
  - apply (visits_trans [A] [B] w w1' w'); [|exact Hv2].
    by exists n.
Qed.

End Visits.

(** C1: in every walk, whatever the links between the pages and however
    the walk ends, no URL is fetched over the network twice; and when no
    two of the URLs asked of the page cache share a file name and the cache
    held, under their file names, no page of another URL, no URL is asked
    of the page cache twice either, and the first asked is the root.  When
    such a walk completes, the root and every URL asked for are keys of the
    map; from an empty map, the keys are exactly the URLs asked for, in the
    order they were asked, and the map holds every URL its pages link to:
    each page that can be reached was visited, once.

    On two pages [A] and [B] of which [A] links to [B], and neither links
    anywhere else, the walk from [A] with a limit of two nested calls
    or more completes, whatever the order and the number of the links: the
    cache is asked for [A], then for [B], once each, each is fetched once,
    and the map holds the two pages. *)
Theorem walk_fetches_each_url_once `{Libraries} :
  (∀ depth site cache w r w',
     walk_site depth site cache w = (r, w') →
     ∃ new, log w' = log w ++ new ∧ NoDup (fetches new) ∧
       (collision_free_on (lookups new) → answers_for (lookups new) (disk w) →
        NoDup (lookups new) ∧
        head (lookups new) = Some (Site_url site) ∧
        match r with
        | Ok site' =>
            Site_url site ∈ keys (Site_pages site') ∧
            (∀ url, url ∈ lookups new → url ∈ keys (Site_pages site')) ∧
            (Site_pages site = [] →
             keys (Site_pages site') = lookups new ∧ closed (Site_pages site'))
        | Raise _ => True
        end))
  ∧ (∀ depth cache w A B rA rB linksA linksB,
       A ≠ B →
       cache_path A ≠ cache_path B →
       Page_get_urls (mkPage A rA) = Ok linksA →
       Page_get_urls (mkPage B rB) = Ok linksB →
       B ∈ linksA → linksA ⊆ [A; B] → linksB ⊆ [A; B] →
       is_miss (disk w !! cache_path A) →
       is_miss (disk w !! cache_path B) →
       httpx_get (requests w) (URL_furl_tostr A) = Ok rA →
       httpx_get (requests w ++ [URL_furl_tostr A]) (URL_furl_tostr B) = Ok rB →
       ∃ w',
         walk_site (S (S depth)) (mkSite A []) cache w
         = (Ok (mkSite A [(A, mkPage A rA); (B, mkPage B rB)]), w')
         ∧ visits [A; B] w w').
Proof.
  split.
  - intros depth site cache w r w' Hrun.
    destruct (walk_site_fetches _ _ _ _ _ _ Hrun) as (new & Hlog & Hnd).
    exists new. split; [done|]. split; [done|]. intros Hfree Hd.
    assert (Hasked : asked w w' ⊆ lookups new)
      by (by rewrite (asked_app _ _ _ Hlog)).
    destruct (walk_site_lookups _ _ _ _ _ _ _ Hfree Hd Hrun Hasked)
      as (new' & Hlog' & Hl & _ & Hhead & Hr).
    rewrite Hlog in Hlog'. apply app_inv_head in Hlog' as <-.
    split; [done|]. split; [done|]. destruct r as [site'|e]; [|done].
    destruct Hr as (_ & Hin & Hkeys).
    split.
    { apply Hin. destruct (lookups new) as [|u us]; [done|].
      inversion Hhead; subst. apply elem_of_cons. by left. }
    split; [done|]. intros Hempty.
    split; [by apply Hkeys|].
    by eapply (walk_site_closed cache _ Hfree).
  - intros depth cache w A B rA rB linksA linksB
      HAB Hpath HlinksA HlinksB HB HsubA HsubB HmissA HmissB HgetA HgetB.
    by eapply walk_two_pages.
Qed.

(** ** The small instances

    With the digest of bounded length two URLs can share a file name; the
    URLs of the sites walked below do not. *)

Lemma collision_free_on_NoDup `{Libraries} urls :
  NoDup (cache_path <$> urls) → collision_free_on urls.
Proof.
  induction urls as [|x urls IH]; intros Hnd u v Hu Hv Heq.
  - by apply elem_of_nil in Hu.
  - rewrite fmap_cons in Hnd. apply NoDup_cons in Hnd as [Hx Hnd].
    apply elem_of_cons in Hu as [->|Hu]; apply elem_of_cons in Hv as [->|Hv].
    + done.
    + destruct Hx. rewrite Heq. apply list_elem_of_fmap. by exists v.
    + destruct Hx. rewrite <- Heq. apply list_elem_of_fmap. by exists u.
    + by apply IH.
Qed.

Example bounded_digest_collides :
  let L := Toy.bounded [] in
  let url1 := Toy.url "/a/b/c/d/e/f/g" in
  let url2 := Toy.url "/a/b/c/d/e/f/h" in
  url1 ≠ url2 ∧ @cache_path L url1 = @cache_path L url2.
Proof. split; [vm_compute; discriminate|vm_compute; reflexivity]. Qed.

Lemma answers_for_empty `{Libraries} urls : answers_for urls ∅.
Proof. intros url stored _. by rewrite lookup_empty. Qed.

Lemma pair_swap_subseteq {X} (a b : X) : [b; a] ⊆ [a; b].
Proof.
  intros x [->|Hx]%elem_of_cons.
  - apply elem_of_cons. right. apply elem_of_cons. by left.
  - apply list_elem_of_singleton in Hx as ->. apply elem_of_cons. by left.
Qed.

Lemma walk_fetches_each_url_once_witness :
  let L := Toy.bounded Toy.cycle in
  let cache := mkPageCache (pathlib.Path "/tmp/cache") in
  let A := Toy.url "/a" in
  let B := Toy.url "/b" in
  let rA := mkResponse 200 "/b /a" in
  let rB := mkResponse 200 "/a /b" in
  let w := Toy.empty_world in
  let run := @walk_site L 10 (mkSite A []) cache w in
  (∃ new, log run.2 = log w ++ new ∧
     (@collision_free_on L (lookups new) ∧ @answers_for L (lookups new) (disk w)) ∧
     NoDup (fetches new) ∧ NoDup (lookups new) ∧
     head (lookups new) = Some A ∧
     match run.1 with
     | Ok site' =>
         A ∈ keys (Site_pages site') ∧
         (∀ url, url ∈ lookups new → url ∈ keys (Site_pages site')) ∧
         (Site_pages (mkSite A []) = [] →
          keys (Site_pages site') = lookups new ∧ @closed L (Site_pages site'))
     | Raise _ => True
     end)
  ∧ ((A ≠ B ∧ @cache_path L A ≠ @cache_path L B
      ∧ @Page_get_urls L (mkPage A rA) = Ok [B; A]
      ∧ @Page_get_urls L (mkPage B rB) = Ok [A; B]
      ∧ is_miss (disk w !! @cache_path L A) ∧ is_miss (disk w !! @cache_path L B)
      ∧ @httpx_get L (requests w) (@URL_furl_tostr L A) = Ok rA
      ∧ @httpx_get L (requests w ++ [@URL_furl_tostr L A]) (@URL_furl_tostr L B)
        = Ok rB)
     ∧ ∃ w',
         @walk_site L 2 (mkSite A []) cache w
         = (Ok (mkSite A [(A, mkPage A rA); (B, mkPage B rB)]), w')
         ∧ @visits L [A; B] w w').
Proof.
  intros L cache A B rA rB w run. split.
  - destruct (proj1 (@walk_fetches_each_url_once L) 10 (mkSite A []) cache w
                run.1 run.2 (surjective_pairing run)) as (new & Hlog & Hf & Hl).
    pose proof Hlog as Hlog0. change (log run.2 = new) in Hlog. subst new.
    assert (Hfree : @collision_free_on L (lookups (log run.2))).
    { apply collision_free_on_NoDup. apply (bool_decide_unpack _).
      vm_compute. exact I. }
    exists (log run.2). split; [exact Hlog0|].
    split; [exact (conj Hfree (answers_for_empty _))|].
    split; [exact Hf|].
    exact (Hl Hfree (answers_for_empty _)).
  - assert (HAB : A ≠ B) by (vm_compute; discriminate).
    assert (Hpath : @cache_path L A ≠ @cache_path L B) by (vm_compute; discriminate).
    assert (HlinksA : @Page_get_urls L (mkPage A rA) = Ok [B; A])
      by (vm_compute; reflexivity).
    assert (HlinksB : @Page_get_urls L (mkPage B rB) = Ok [A; B])
      by (vm_compute; reflexivity).
    assert (HmissA : is_miss (disk w !! @cache_path L A))
      by (left; apply lookup_empty).
    assert (HmissB : is_miss (disk w !! @cache_path L B))
      by (left; apply lookup_empty).
    assert (HgetA : @httpx_get L (requests w) (@URL_furl_tostr L A) = Ok rA)
      by (vm_compute; reflexivity).
    assert (HgetB : @httpx_get L (requests w ++ [@URL_furl_tostr L A])
                      (@URL_furl_tostr L B) = Ok rB)
      by (vm_compute; reflexivity).
    split.
    { exact (conj HAB (conj Hpath (conj HlinksA (conj HlinksB
               (conj HmissA (conj HmissB (conj HgetA HgetB))))))). }
    exact (proj2 (@walk_fetches_each_url_once L) 0 cache w A B rA rB [B; A] [A; B]
             HAB Hpath HlinksA HlinksB (list_elem_of_here B [A])
             (pair_swap_subseteq A B) (λ x Hx, Hx)
             HmissA HmissB HgetA HgetB).
Defined.

(** On the cycle, both pages are asked for once and fetched once, whichever
    link comes first. *)
Example walk_cycle :
  let cache := mkPageCache (pathlib.Path "/tmp/cache") in
  let site := mkSite (Toy.url "/a") [] in
  let visits (run : result Site * World) :=
    (match run.1 with Ok site' => Some (keys (Site_pages site')) | _ => None end,
     lookups (log run.2), fetches (log run.2), length (requests run.2)) in
  let once := [Toy.url "/a"; Toy.url "/b"] in
  visits (@walk_site (Toy.libraries Toy.cycle) 10 site cache Toy.empty_world)
    = (Some once, once, once, 2)
  ∧ visits (@walk_site (Toy.libraries Toy.cycle_swapped) 10 site cache Toy.empty_world)
    = (Some once, once, once, 2).
Proof. vm_compute. done. Qed.

(** ** The page cache *)

(** C2: starting without a valid artifact for the URL and with a network
    that answers, two calls of [PageCache.get_page] in sequence return the
    same page, the first sends the one request and the second sends none
    and leaves the disk as it is. *)
Theorem get_page_twice_fetches_once `{Libraries} cache url w response :
  is_miss (disk w !! cache_path url) →
  httpx_get (requests w) (URL_furl_tostr url) = Ok response →
  ∃ page w1 w2,
    PageCache_get_page cache url w = (Ok page, w1) ∧
    PageCache_get_page cache url w1 = (Ok page, w2) ∧
    page = mkPage url response ∧
    requests w1 = requests w ++ [URL_furl_tostr url] ∧
    requests w2 = requests w1 ∧
    disk w2 = disk w1 ∧
    fetches (drop (length (log w)) (log w2)) = [url].
Proof.
  intros Hmiss Hget.
  set (page := mkPage url response).
  set (w1 := mkWorld (<[cache_path url := Pickled page]> (disk w))
               (requests w ++ [URL_furl_tostr url])
               (log w ++ miss_log url (disk w !! cache_path url)
                  ++ [LogResponse url response; LogReading2 url (cache_path url)])
               (stdout w)).
  assert (Hhit : disk w1 !! cache_path url = Some (Pickled page))
    by apply lookup_insert_eq.
  exists page, w1, (log_step (LogReading url (cache_path url)) w1).
  split; [by apply PageCache_get_page_miss|].
  split; [by apply PageCache_get_page_hit|].
  repeat split. simpl. rewrite <- app_assoc, drop_app_length.
  by destruct (disk w !! cache_path url).
Qed.

Lemma get_page_twice_fetches_once_witness :
  let L := Toy.libraries Toy.cycle in
  let cache := mkPageCache (pathlib.Path "/tmp/cache") in
  let url := Toy.url "/a" in
  let response := mkResponse 200 "/b /a" in
  (is_miss (disk Toy.empty_world !! @cache_path L url) ∧
   @httpx_get L (requests Toy.empty_world) (@URL_furl_tostr L url) = Ok response) ∧
  ∃ page w1 w2,
    @PageCache_get_page L cache url Toy.empty_world = (Ok page, w1) ∧
    @PageCache_get_page L cache url w1 = (Ok page, w2) ∧
    page = mkPage url response ∧
    requests w1 = requests Toy.empty_world ++ [@URL_furl_tostr L url] ∧
    requests w2 = requests w1 ∧
    disk w2 = disk w1 ∧
    fetches (drop (length (log Toy.empty_world)) (log w2)) = [url].
Proof.
  intros L cache url response.
  assert (Hmiss : is_miss (disk Toy.empty_world !! @cache_path L url))
    by (left; apply lookup_empty).
  assert (Hget : @httpx_get L (requests Toy.empty_world) (@URL_furl_tostr L url)
                 = Ok response) by (vm_compute; reflexivity).
  split; [exact (conj Hmiss Hget)|].
  exact (@get_page_twice_fetches_once L cache url Toy.empty_world response Hmiss Hget).
Defined.

(** C3: when the artifact of the URL does not unpickle, [PageCache.get_page]
    records the problem, deletes the artifact and asks the network: with an
    answer it returns the fresh page and leaves its pickle on the disk; the
    only exception that can come out is the network's, and then the corrupt
    artifact is gone.  No other file is touched. *)
Theorem corrupt_artifact_recovered `{Libraries} cache url w :
  disk w !! cache_path url = Some Corrupt →
  ∃ r w', PageCache_get_page cache url w = (r, w') ∧
    match httpx_get (requests w) (URL_furl_tostr url) with
    | Ok response =>
        r = Ok (mkPage url response) ∧
        disk w' !! cache_path url = Some (Pickled (mkPage url response))
    | Raise e => r = Raise e ∧ disk w' !! cache_path url = None
    end ∧
    requests w' = requests w ++ [URL_furl_tostr url] ∧
    LogProblem (cache_path url) UnpicklingError ∈ log w' ∧
    ∀ name, name ≠ cache_path url → disk w' !! name = disk w !! name.
Proof.
  intros Hk. assert (Hmiss : is_miss (disk w !! cache_path url)) by by right.
  assert (Hlog : ∀ l, LogProblem (cache_path url) UnpicklingError
                      ∈ log w ++ miss_log url (disk w !! cache_path url) ++ l).
  { intros l. rewrite Hk. apply elem_of_app. right. simpl.
    apply elem_of_cons. right. apply elem_of_cons. by left. }
  destruct (httpx_get (requests w) (URL_furl_tostr url)) as [response|e] eqn:Hget.
  - eexists _, _. split; [by apply PageCache_get_page_miss|]. simpl.
    split; [split; [done|apply lookup_insert_eq]|]. split; [done|].
    split; [apply Hlog|]. intros name Hne. by rewrite lookup_insert_ne.
  - eexists _, _. split; [by apply PageCache_get_page_fail|]. simpl.
    split; [split; [done|apply lookup_delete_eq]|]. split; [done|].
    split; [rewrite <- (app_nil_r (miss_log _ _)); apply Hlog|].
    intros name Hne. by rewrite lookup_delete_ne.
Qed.

Lemma corrupt_artifact_recovered_witness :
  let L := Toy.libraries Toy.cycle in
  let cache := mkPageCache (pathlib.Path "/tmp/cache") in
  let url := Toy.url "/a" in
  let w := mkWorld {[ @cache_path L url := Corrupt ]} [] [] [] in
  disk w !! @cache_path L url = Some Corrupt ∧
  ∃ r w', @PageCache_get_page L cache url w = (r, w') ∧
    match @httpx_get L (requests w) (@URL_furl_tostr L url) with
    | Ok response =>
        r = Ok (mkPage url response) ∧
        disk w' !! @cache_path L url = Some (Pickled (mkPage url response))
    | Raise e => r = Raise e ∧ disk w' !! @cache_path L url = None
    end ∧
    requests w' = requests w ++ [@URL_furl_tostr L url] ∧
    LogProblem (@cache_path L url) UnpicklingError ∈ log w' ∧
    ∀ name, name ≠ @cache_path L url → disk w' !! name = disk w !! name.
Proof.
  intros L cache url w.
  assert (Hk : disk w !! @cache_path L url = Some Corrupt)
    by apply lookup_singleton_eq.
  split; [exact Hk|].
  exact (@corrupt_artifact_recovered L cache url w Hk).
Defined.

(** On the small instance: the corrupt artifact is replaced by the pickle
    of the page the server sends. *)
Example corrupt_artifact_run :
  let L := Toy.libraries Toy.cycle in
  let cache := mkPageCache (pathlib.Path "/tmp/cache") in
  let url := Toy.url "/a" in
  let w := mkWorld {[ @cache_path L url := Corrupt ]} [] [] [] in
  let run := @PageCache_get_page L cache url w in
  run.1 = Ok (mkPage url (mkResponse 200 "/b /a"))
  ∧ disk run.2 !! @cache_path L url = Some (Pickled (mkPage url (mkResponse 200 "/b /a")))
  ∧ length (requests run.2) = 1.
Proof. vm_compute. done. Qed.

(** ** The page map is keyed by the URLs of its pages *)

Lemma process_page_keyed `{Libraries} depth site page cache w site' w' :
  pages_keyed (Site_pages site) →
  process_page depth site page cache w = (Ok site', w') →
  pages_keyed (Site_pages site').
Proof.
  intros Hk Hrun.
  by eapply (process_page_rule cache (λ site _, pages_keyed (Site_pages site))
            (λ _ _, True)) in Hrun;
    [| | |intros; destruct r; [by apply pages_keyed_setitem|done]|exact Hk].
Qed.

(** C10: a call of [PageCache.get_page] that reads no artifact written for
    another URL returns a page whose [url] is the URL asked for; and a walk
    leaves every key of the page map equal to the [url] of the page it maps
    to, since a page is only ever stored under its own [url]. *)
Theorem page_map_keys_are_page_urls `{Libraries} :
  (∀ cache url w page w',
     (∀ stored, disk w !! cache_path url = Some (Pickled stored) →
                Page_url stored = url) →
     PageCache_get_page cache url w = (Ok page, w') →
     Page_url page = url)
  ∧ (∀ depth site cache w site' w',
       pages_keyed (Site_pages site) →
       walk_site depth site cache w = (Ok site', w') →
       pages_keyed (Site_pages site')).
Proof.
  split.
  - intros cache url w page w' Hstored Hrun.
    apply PageCache_get_page_inv in Hrun
      as [(stored & Hk & [= ->] & _)|[(_ & resp & _ & [= ->] & _)|(_ & e & _ & [=] & _)]].
    + by apply Hstored.
    + done.
  - intros depth site cache w site' w' Hk Hrun.
    unfold walk_site in Hrun. rewrite bind_LOG in Hrun.
    apply bind_inv in Hrun as [(root & w1 & _ & Hrun)|(e & _ & ?)]; [|done].
    eapply process_page_keyed; [|done]. by apply pages_keyed_setitem.
Qed.

Lemma page_map_keys_are_page_urls_witness :
  let L := Toy.libraries Toy.cycle in
  let cache := mkPageCache (pathlib.Path "/tmp/cache") in
  let call := @PageCache_get_page L cache (Toy.url "/a") Toy.empty_world in
  let run := @walk_site L 10 (mkSite (Toy.url "/a") []) cache Toy.empty_world in
  (∀ page, call.1 = Ok page → Page_url page = Toy.url "/a")
  ∧ (∀ site', run.1 = Ok site' → pages_keyed (Site_pages site')).
Proof.
  intros L cache call run. split.
  - intros page Hcall.
    apply (proj1 (@page_map_keys_are_page_urls L) cache (Toy.url "/a")
             Toy.empty_world page call.2).
    + intros stored. change (disk Toy.empty_world) with (∅ : gmap string File).
      rewrite lookup_empty. discriminate.
    + rewrite <- Hcall. apply surjective_pairing.
  - intros site' Hrun.
    apply (proj2 (@page_map_keys_are_page_urls L) 10 (mkSite (Toy.url "/a") [])
             cache Toy.empty_world site' run.2).
    + apply Forall_nil_2.
    + rewrite <- Hrun. apply surjective_pairing.
Defined.

(** ** Standard output *)

Lemma get_page_stdout `{Libraries} cache url w r w' :
  PageCache_get_page cache url w = (r, w') → stdout w' = stdout w.
Proof.
  intros Hrun. by apply PageCache_get_page_effect in Hrun as (_ & _ & _ & ? & _).
Qed.

Section ReportPrefix.
Context `{Libraries}.
Variables (target : Site) (cache : PageCache).

Lemma report_loop_prefix pages : ∀ w r w',
  for_each (λ _ item,
    let page := item.2 in
    let target_url := URL_set_host (Page_url page) (URL_host (Site_url target)) in
    LOG (LogChecking item.1 target_url);;
    target_page ← PageCache_get_page cache target_url;
    write (Line (row_of page target_page))) pages () w = (r, w') →
  ∃ rows,
    stdout w' = stdout w ++ (Line <$> rows) ∧
    original <$> rows
    = (λ item, URL_furl_tostr (Page_url item.2)) <$> take (length rows) pages ∧
    match r with
    | Ok _ => length rows = length pages
    | Raise _ => length rows < length pages
    end.
Proof.
  induction pages as [|[url page] pages IH]; intros w r w' Hrun.
  - inversion Hrun; subst. exists []. by rewrite app_nil_r.
  - simpl in Hrun.
    apply bind_inv in Hrun as [([] & w3 & Hbody & Hrun)|(e & Hbody & ->)].
    + rewrite bind_LOG in Hbody.
      apply bind_inv in Hbody as [(target_page & w2 & Hget & Hwrite)|(e & _ & ?)];
        [|done].
      inversion Hwrite; subst w3; clear Hwrite.
      apply get_page_stdout in Hget.
      apply IH in Hrun as (rows & Hout & Horig & Hlen).
      exists (row_of page target_page :: rows).
      split. { rewrite Hout. simpl. rewrite Hget. simpl. by rewrite <- app_assoc. }
      split. { cbn [length take]. by rewrite !fmap_cons, Horig. }
      cbn [length]. destruct r; lia.
    + rewrite bind_LOG in Hbody.
      apply bind_inv in Hbody as [(target_page & w2 & Hget & Hwrite)|(e' & Hget & _)];
        [done|].
      apply get_page_stdout in Hget.
      exists []. simpl in *. rewrite app_nil_r. split; [done|]. split; [done|]. lia.
Qed.

End ReportPrefix.

(** ** The parts of [main] *)

Lemma main_with_slash `{Libraries} depth original_site target_site cache_path :
  main depth original_site target_site cache_path
  = (original ← site_of (with_slash original_site);
     target ← site_of (with_slash target_site);
     LOG (LogComparing original target);;
     original ← walk_site depth original (mkPageCache cache_path);
     main_report original target (mkPageCache cache_path)).
Proof. reflexivity. Qed.

(** ** A failed fetch ends the walk *)

Lemma snoc_split {A} (l : list A) x before y after :
  l ++ [x] = before ++ y :: after →
  (after = [] ∧ before = l ∧ y = x)
  ∨ ∃ after', after = after' ++ [x] ∧ l = before ++ y :: after'.
Proof.
  destruct after as [|z after' _] using rev_ind; intros Heq.
  - apply app_inj_tail in Heq as [-> ->]. by left.
  - right. exists after'. rewrite app_comm_cons, app_assoc in Heq.
    by apply app_inj_tail in Heq as [-> ->].
Qed.

Section Failure.
Context `{Libraries}.
Variable cache : PageCache.

Lemma requests_inv_exc base e w : requests_inv base w → requests_exc base e w.
Proof.
  intros (done & Hreq & Hall). exists done. split; [done|].
  intros before s after e' Hsplit Hfail.
  destruct (Hall _ _ _ Hsplit) as [response Hok]. congruence.
Qed.

Lemma requests_inv_get base url w r w' :
  requests_inv base w →
  PageCache_get_page cache url w = (r, w') →
  match r with Ok _ => requests_inv base w' | Raise e => requests_exc base e w' end.
Proof.
  intros (done & Hreq & Hall) Hrun.
  apply PageCache_get_page_effect in Hrun
    as (gnew & _ & _ & _ & [(_ & _ & Hr & page & -> & _)|(_ & _ & Hr & Hcase)]).
  - exists done. by rewrite Hr.
  - destruct r as [page|e].
    + destruct Hcase as (Hget & _ & _). exists (done ++ [URL_furl_tostr url]).
      rewrite Hr, Hreq, <- app_assoc. split; [done|].
      intros before s after [(-> & -> & ->)|(after' & -> & ->)]%snoc_split.
      * rewrite <- Hreq. eauto.
      * by eapply Hall.
    + destruct Hcase as (Hget & Hd). exists (done ++ [URL_furl_tostr url]).
      rewrite Hr, Hreq, <- app_assoc. split; [done|].
      intros before s after e' [(-> & -> & ->)|(after' & -> & ->)]%snoc_split Hfail.
      * rewrite <- Hreq, Hget in Hfail. inversion Hfail; subst e'.
        split; [done|]. split; [done|]. rewrite Hd. apply lookup_delete_eq.
      * destruct (Hall _ _ _ eq_refl) as [response Hok]. congruence.
Qed.

Lemma process_page_requests base depth site page w r w' :
  requests_inv base w →
  process_page depth site page cache w = (r, w') →
  match r with Ok _ => requests_inv base w' | Raise e => requests_exc base e w' end.
Proof.
  intros Hinv Hrun.
  eapply (process_page_rule cache (λ _, requests_inv base) (requests_exc base))
    in Hrun; [exact Hrun| | | |exact Hinv].
  - intros _ w0 rec _ Hinv0. exact Hinv0.
  - intros _ w0 e. apply requests_inv_exc.
  - intros _ url w0 r0 w0' Hinv0 _ Hget. by eapply requests_inv_get.
Qed.

Lemma walk_site_requests base depth site w r w' :
  requests_inv base w →
  walk_site depth site cache w = (r, w') →
  match r with Ok _ => requests_inv base w' | Raise e => requests_exc base e w' end.
Proof.
  intros Hinv Hrun. unfold walk_site in Hrun. rewrite bind_LOG in Hrun.
  assert (Hinv0 : requests_inv base (log_step (LogWalking site) w)) by exact Hinv.
  apply bind_inv in Hrun as [(root & w1 & Hget & Hrun)|(e0 & Hget & ->)].
  - eapply requests_inv_get in Hget; [|done].
    by eapply process_page_requests in Hrun.
  - by eapply requests_inv_get in Hget.
Qed.

Lemma main_report_requests base original target w r w' :
  requests_inv base w →
  main_report original target cache w = (r, w') →
  match r with Ok _ => requests_inv base w' | Raise e => requests_exc base e w' end.
Proof.
  intros Hinv Hrun. unfold main_report in Hrun.
  apply bind_inv in Hrun as [([] & w1 & Hhead & Hrun)|(e & Hhead & _)]; [|done].
  inversion Hhead; subst w1; clear Hhead.
  assert (Hinv1 : requests_inv base
                    (mkWorld (disk w) (requests w) (log w) (stdout w ++ [Header])))
    by exact Hinv.
  revert Hinv1 Hrun. generalize (mkWorld (disk w) (requests w) (log w)
                                   (stdout w ++ [Header])).
  clear Hinv w.
  induction (Site_pages original) as [|[url page] pages IH]; intros w Hinv Hrun.
  - by inversion Hrun; subst.
  - simpl in Hrun.
    apply bind_inv in Hrun as [([] & w3 & Hbody & Hrun)|(e & Hbody & ->)].
    + rewrite bind_LOG in Hbody.
      apply bind_inv in Hbody as [(target_page & w2 & Hget & Hwrite)|(e & _ & ?)];
        [|done].
      inversion Hwrite; subst w3; clear Hwrite.
      eapply requests_inv_get in Hget; [|exact Hinv].
      by apply IH in Hrun.
    + rewrite bind_LOG in Hbody.
      apply bind_inv in Hbody as [(target_page & w2 & Hget & Hwrite)|(e' & Hget & [= <-])];
        [done|].
      by eapply requests_inv_get in Hget; [|exact Hinv].
Qed.

End Failure.

Lemma walk_site_stdout `{Libraries} cache depth site w r w' :
  walk_site depth site cache w = (r, w') → stdout w' = stdout w.
Proof.
  unfold walk_site. rewrite bind_LOG. intros Hrun.
  apply bind_inv in Hrun as [(root & w1 & Hget & Hrun)|(e & Hget & ->)].
  - apply get_page_stdout in Hget.
    eapply (process_page_rule cache (λ _ w2, stdout w2 = stdout w)
              (λ _ w2, stdout w2 = stdout w)) in Hrun; [by destruct r|done|done| |done].
    intros _ url w2 r2 w2' Hout _ Hget2. apply get_page_stdout in Hget2.
    destruct r2; congruence.
  - by apply get_page_stdout in Hget.
Qed.

(** The three ways a run of [main] can go: a root is rejected, the walk
    raises, or the walk completes and the report is written. *)
Lemma main_inv `{Libraries} depth original_site target_site cache_path w r w' :
  main depth original_site target_site cache_path w = (r, w') →
  (w' = w ∧ ∃ e, r = Raise e)
  ∨ ∃ fo ft,
      furl_furl (with_slash original_site) = Ok fo ∧
      furl_furl (with_slash target_site) = Ok ft ∧
      ∃ r1 w1,
        walk_site depth (root_site fo) (mkPageCache cache_path)
          (log_step (LogComparing (root_site fo) (root_site ft)) w) = (r1, w1) ∧
        match r1 with
        | Ok site' =>
            main_report site' (root_site ft) (mkPageCache cache_path) w1 = (r, w')
        | Raise e => r = Raise e ∧ w' = w1
        end.
Proof.
  rewrite main_with_slash. intros Hrun.
  apply bind_inv in Hrun as [(site & w1 & Ho & Hrun)|(e & Ho & ->)].
  2: { apply bind_lift_inv in Ho as [(fo & _ & [=])|(e' & _ & _ & ->)].
       left. eauto. }
  apply bind_lift_inv in Ho as [(fo & Hfo & Ho)|(e & _ & [=] & _)].
  inversion Ho; subst site w1; clear Ho.
  apply bind_inv in Hrun as [(target & w1 & Ht & Hrun)|(e & Ht & ->)].
  2: { apply bind_lift_inv in Ht as [(ft & _ & [=])|(e' & _ & _ & ->)].
       left. eauto. }
  apply bind_lift_inv in Ht as [(ft & Hft & Ht)|(e & _ & [=] & _)].
  inversion Ht; subst target w1; clear Ht.
  rewrite bind_LOG in Hrun. right. exists fo, ft. split; [done|]. split; [done|].
  apply bind_inv in Hrun as [(site' & w2 & Hwalk & Hreport)|(e & Hwalk & ->)].
  - by exists (Ok site'), w2.
  - by exists (Raise e), w'.
Qed.

(** C4, as the code has it: a request that fails is not absorbed.  A call
    of [PageCache.get_page] that sends a request returns the page made of
    the response, whatever its status code, and leaves it in the cache;
    when the request fails it raises the exception of the request and
    leaves no artifact, hence no page standing for the failure.  In a walk,
    for the root or for a discovered URL, and in a whole run of [main], a
    request that fails is the last request, the walk and the run end with
    its exception, and no artifact is left under the file name of the URL.
    A run that ends so has written nothing to standard output, unless the
    walk of the original site had completed: then the failure was for a
    page of the target, and the report stops short of its last row. *)
Theorem failed_fetch_ends_walk `{Libraries} :
  (∀ cache url w r w',
     PageCache_get_page cache url w = (r, w') →
     requests w' ≠ requests w →
     requests w' = requests w ++ [URL_furl_tostr url] ∧
     match httpx_get (requests w) (URL_furl_tostr url) with
     | Ok response =>
         r = Ok (mkPage url response) ∧
         disk w' !! cache_path url = Some (Pickled (mkPage url response))
     | Raise e => r = Raise e ∧ disk w' !! cache_path url = None
     end)
  ∧ (∀ depth site cache w r w' before s after e,
       walk_site depth site cache w = (r, w') →
       requests w' = requests w ++ before ++ s :: after →
       httpx_get (requests w ++ before) s = Raise e →
       r = Raise e ∧ after = [] ∧
       disk w' !! (sha256_hexdigest s +:+ ".pickle") = None)
  ∧ (∀ depth original_site target_site cache_path w r w' before s after e,
       main depth original_site target_site cache_path w = (r, w') →
       requests w' = requests w ++ before ++ s :: after →
       httpx_get (requests w ++ before) s = Raise e →
       r = Raise e ∧ after = [] ∧
       disk w' !! (sha256_hexdigest s +:+ ".pickle") = None ∧
       (stdout w' = stdout w
        ∨ ∃ fo ft site' w1 rows,
            furl_furl (with_slash original_site) = Ok fo ∧
            furl_furl (with_slash target_site) = Ok ft ∧
            walk_site depth (root_site fo) (mkPageCache cache_path)
              (log_step (LogComparing (root_site fo) (root_site ft)) w)
            = (Ok site', w1) ∧
            stdout w' = stdout w ++ Header :: (Line <$> rows) ∧
            length rows < length (Site_pages site'))).
Proof.
  assert (Hlast : ∀ base (r : result Site + result unit) w' before s after e,
    match r with
    | inl (Ok _) | inr (Ok _) => requests_inv base w'
    | inl (Raise e0) | inr (Raise e0) => requests_exc base e0 w'
    end →
    requests w' = base ++ before ++ s :: after →
    httpx_get (base ++ before) s = Raise e →
    (r = inl (Raise e) ∨ r = inr (Raise e)) ∧ after = [] ∧
    disk w' !! (sha256_hexdigest s +:+ ".pickle") = None).
  { intros base r w' before s after e Hpost Hreq Hfail.
    assert (Hinv : requests_inv base w' → False).
    { intros (done & Hreq' & Hall).
      rewrite Hreq' in Hreq. apply app_inv_head in Hreq as ->.
      destruct (Hall _ _ _ eq_refl) as [response Hok]. congruence. }
    assert (Hexc : ∀ e0, requests_exc base e0 w' →
      e0 = e ∧ after = [] ∧ disk w' !! (sha256_hexdigest s +:+ ".pickle") = None).
    { intros e0 (done & Hreq' & Hl).
      rewrite Hreq' in Hreq. apply app_inv_head in Hreq as ->.
      by destruct (Hl _ _ _ _ eq_refl Hfail) as (-> & -> & Hnone). }
    destruct r as [[site'|e0]|[[]|e0]]; try (by destruct (Hinv Hpost)).
    - destruct (Hexc _ Hpost) as (-> & ? & ?). eauto.
    - destruct (Hexc _ Hpost) as (-> & ? & ?). eauto. }
  assert (Hbase : ∀ w, requests_inv (requests w) w).
  { intros w. exists []. rewrite app_nil_r. split; [done|].
    intros b x a Hnil. by destruct b. }
  split; [|split].
  - intros cache url w r w' Hrun Hsent.
    apply PageCache_get_page_inv in Hrun
      as [(page & Hk & -> & ->)|[(Hk & resp & Hget & -> & ->)|(Hk & e & Hget & -> & ->)]];
      simpl in *; [done| |].
    + rewrite Hget. split; [done|]. split; [done|]. apply lookup_insert_eq.
    + rewrite Hget. split; [done|]. split; [done|]. apply lookup_delete_eq.
  - intros depth site cache w r w' before s after e Hrun Hreq Hfail.
    pose proof (walk_site_requests cache _ _ _ _ _ _ (Hbase w) Hrun) as Hpost.
    destruct (Hlast (requests w) (inl r) w' before s after e) as ([Hr|Hr] & ? & ?);
      [by destruct r|done|done| |done].
    by inversion Hr.
  - intros depth original_site target_site cache_path w r w' before s after e
      Hrun Hreq Hfail.
    apply main_inv in Hrun as [[-> _]|(fo & ft & Hfo & Hft & r1 & w1 & Hwalk & Hcase)].
    { rewrite <- (app_nil_r (requests w)) in Hreq at 1.
      apply app_inv_head in Hreq. by destruct before. }
    set (cache := mkPageCache cache_path) in *.
    set (w0 := log_step (LogComparing (root_site fo) (root_site ft)) w) in *.
    pose proof (walk_site_requests cache _ _ _ _ _ _ (Hbase w0) Hwalk) as Hpost1.
    pose proof (walk_site_stdout _ _ _ _ _ _ Hwalk) as Hout1.
    destruct r1 as [site'|e1].
    + pose proof (main_report_requests cache _ _ _ _ _ _ Hpost1 Hcase) as Hpost.
      destruct (Hlast (requests w) (inr r) w' before s after e)
        as ([Hr|Hr] & ? & ?); [by destruct r as [[]|]|done|done|done|].
      inversion Hr; subst r. split; [done|]. split; [done|]. split; [done|].
      right. unfold main_report in Hcase.
      apply bind_inv in Hcase as [([] & w2 & Hhead & Hloop)|(e' & Hhead & _)];
        [|done].
      inversion Hhead; subst w2; clear Hhead.
      apply report_loop_prefix in Hloop as (rows & Hout & _ & Hlen).
      exists fo, ft, site', w1, rows. split; [done|]. split; [done|].
      split; [done|]. split; [|done].
      rewrite Hout. simpl. rewrite Hout1. simpl. by rewrite <- app_assoc.
    + destruct Hcase as [-> ->].
      destruct (Hlast (requests w) (inl (Raise e1)) w1 before s after e)
        as ([Hr|Hr] & ? & ?); [done|done|done| |done].
      inversion Hr; subst e1. split; [done|]. split; [done|]. split; [done|].
      by left.
Qed.

Lemma failed_fetch_ends_walk_witness :
  let L := Toy.libraries Toy.broken in
  let cache := mkPageCache (pathlib.Path "/tmp/cache") in
  let w := Toy.empty_world in
  let call := @PageCache_get_page L cache (Toy.url "/broken") w in
  let walk := @walk_site L 10 (mkSite (Toy.url "/") []) cache w in
  let run := @main L 10 "//h" "//t" (pathlib.Path "/tmp/cache") w in
  let before := [@URL_furl_tostr L (Toy.url "/"); @URL_furl_tostr L (Toy.url "/ok")] in
  let s := @URL_furl_tostr L (Toy.url "/broken") in
  let e := HTTPError "ConnectError" in
  (requests call.2 ≠ requests w
   ∧ requests walk.2 = requests w ++ before ++ s :: []
   ∧ requests run.2 = requests w ++ before ++ s :: []
   ∧ @httpx_get L (requests w ++ before) s = Raise e) ∧
  (requests call.2 = requests w ++ [s] ∧ call.1 = Raise e ∧
   disk call.2 !! @cache_path L (Toy.url "/broken") = None) ∧
  (walk.1 = Raise e ∧ [] = @nil string ∧
   disk walk.2 !! (@sha256_hexdigest L s +:+ ".pickle") = None) ∧
  (run.1 = Raise e ∧ [] = @nil string ∧
   disk run.2 !! (@sha256_hexdigest L s +:+ ".pickle") = None).
Proof.
  intros L cache w call walk run before s e.
  assert (Hsent : requests call.2 ≠ requests w) by (vm_compute; discriminate).
  assert (Hreq1 : requests walk.2 = requests w ++ before ++ s :: [])
    by (vm_compute; reflexivity).
  assert (Hreq2 : requests run.2 = requests w ++ before ++ s :: [])
    by (vm_compute; reflexivity).
  assert (Hfail : @httpx_get L (requests w ++ before) s = Raise e)
    by (vm_compute; reflexivity).
  assert (Hfail0 : @httpx_get L (requests w) s = Raise e)
    by (vm_compute; reflexivity).
  split; [exact (conj Hsent (conj Hreq1 (conj Hreq2 Hfail)))|].
  pose proof (@failed_fetch_ends_walk L) as (Hcall & Hwalk & Hmain).
  split.
  { destruct (Hcall cache (Toy.url "/broken") w call.1 call.2
                (surjective_pairing call) Hsent) as [H1 H2].
    change (@URL_furl_tostr L (Toy.url "/broken")) with s in H1, H2.
    rewrite Hfail0 in H2. exact (conj H1 H2). }
  split.
  - exact (Hwalk 10 (mkSite (Toy.url "/") []) cache w walk.1 walk.2 before s [] e
             (surjective_pairing walk) Hreq1 Hfail).
  - destruct (Hmain 10 "//h" "//t" (pathlib.Path "/tmp/cache") w run.1 run.2
                before s [] e (surjective_pairing run) Hreq2 Hfail)
      as (H1 & H2 & H3 & _).
    exact (conj H1 (conj H2 H3)).
Defined.

(** C4, as stated, fails: one link without an answer ends the run with the
    exception of [httpx]; nothing is written to standard output, not even
    the header, [/later] is never fetched and no page stands for [/broken]
    in the cache. *)
Lemma broken_link_aborts_the_report :
  let L := Toy.libraries Toy.broken in
  let run := @main L 10 "//h" "//t" (pathlib.Path "/tmp/cache") Toy.empty_world in
  run.1 = Raise (HTTPError "ConnectError")
  ∧ stdout run.2 = []
  ∧ fetches (log run.2) = [Toy.url "/"; Toy.url "/ok"; Toy.url "/broken"]
  ∧ disk run.2 !! @cache_path L (Toy.url "/broken") = None.
Proof. vm_compute. done. Qed.

(** ** Paths: [pathlib.Path(str(p)) == p] *)

Lemma app_String a s t : String a s +:+ t = String a (s +:+ t).
Proof. reflexivity. Qed.

Lemma app_Empty t : "" +:+ t = t.
Proof. reflexivity. Qed.

Lemma split_slash_free s : Forall slash_free (Str.split_slash s).
Proof.
  induction s as [|a s IH]; simpl.
  - by apply Forall_singleton.
  - case_bool_decide as Ha; [by apply Forall_cons|].
    destruct (Str.split_slash s) as [|x xs]; [by apply Forall_singleton|].
    apply Forall_cons in IH as [Hx Hxs]. by apply Forall_cons.
Qed.

Lemma split_slash_app x rest :
  slash_free x →
  Str.split_slash (x +:+ "/" +:+ rest) = x :: Str.split_slash rest.
Proof.
  induction x as [|a x IH]; intros Hx.
  - done.
  - destruct Hx as [Ha Hx]. rewrite app_String. simpl.
    rewrite bool_decide_eq_false_2 by done. by rewrite IH.
Qed.

Lemma split_slash_one x : slash_free x → Str.split_slash x = [x].
Proof.
  induction x as [|a x IH]; intros Hx; [done|].
  destruct Hx as [Ha Hx]. simpl.
  rewrite bool_decide_eq_false_2 by done. by rewrite IH.
Qed.

Lemma split_join l :
  l ≠ [] → Forall slash_free l → Str.split_slash (Str.join_slash l) = l.
Proof.
  induction l as [|x l IH]; [done|]. intros _ [Hx Hl]%Forall_cons.
  destruct l as [|y l]; [by apply split_slash_one|].
  change (Str.join_slash (x :: y :: l)) with (x +:+ "/" +:+ Str.join_slash (y :: l)).
  rewrite split_slash_app by done. by rewrite IH.
Qed.

Lemma filter_valid_parts tail :
  Forall valid_part tail → filter (λ x, x ≠ "" ∧ x ≠ ".") tail = tail.
Proof.
  induction 1 as [|x l (Hx1 & Hx2 & _) _ IH]; [done|].
  rewrite filter_cons_True by done. by rewrite IH.
Qed.

Lemma valid_parts_slash_free tail : Forall valid_part tail → Forall slash_free tail.
Proof. intros Htail. eapply Forall_impl; [done|]. by intros x (_ & _ & Hx). Qed.

(** The text of the tail does not start with a separator. *)
Lemma join_valid_no_slash tail :
  Forall valid_part tail → Str.startswith (Str.join_slash tail) "/" = false.
Proof.
  intros Htail. destruct Htail as [|x l (Hx1 & _ & Hx3) _]; [done|].
  destruct x as [|a x]; [done|]. destruct Hx3 as [Ha _].
  assert (Hjoin : ∃ rest, Str.join_slash (String a x :: l) = String a rest).
  { destruct l; simpl; eauto. }
  destruct Hjoin as [rest ->]. simpl.
  by rewrite bool_decide_eq_false_2.
Qed.

Lemma split_join_tail tail :
  Forall valid_part tail →
  filter (λ x, x ≠ "" ∧ x ≠ ".") (Str.split_slash (Str.join_slash tail)) = tail.
Proof.
  intros Htail. destruct tail as [|x l]; [done|].
  rewrite split_join; [by apply filter_valid_parts|done|].
  by apply valid_parts_slash_free.
Qed.

Lemma splitroot_relative j :
  Str.startswith j "/" = false → posixpath.splitroot j = ("", j).
Proof. intros Hj. unfold posixpath.splitroot. by rewrite Hj. Qed.

Lemma splitroot_one j :
  Str.startswith j "/" = false → posixpath.splitroot (String "/" j) = ("/", j).
Proof.
  intros Hj. unfold posixpath.splitroot.
  change (Str.startswith (String "/" j) "//") with (true && Str.startswith j "/").
  rewrite Hj. reflexivity.
Qed.

Lemma splitroot_two j :
  Str.startswith j "/" = false →
  posixpath.splitroot (String "/" (String "/" j)) = ("//", j).
Proof.
  intros Hj. unfold posixpath.splitroot.
  change (Str.startswith (String "/" (String "/" j)) "///")
    with (true && (true && Str.startswith j "/")).
  rewrite Hj. reflexivity.
Qed.

Lemma parse_format root tail :
  valid_root root → Forall valid_part tail →
  pathlib.parse_path (pathlib.format_parsed_parts root tail) = (root, tail).
Proof.
  intros Hroot Htail.
  pose proof (join_valid_no_slash _ Htail) as Hno.
  pose proof (split_join_tail _ Htail) as Hsplit.
  unfold pathlib.format_parsed_parts.
  destruct Hroot as [->|[->| ->]].
  - rewrite app_Empty. destruct (Str.join_slash tail) as [|a rest] eqn:Hjoin.
    + simpl in Hsplit. by subst tail.
    + rewrite bool_decide_eq_false_2 by done. unfold pathlib.parse_path.
      rewrite bool_decide_eq_false_2 by done.
      by rewrite splitroot_relative, Hsplit.
  - change ("/" +:+ Str.join_slash tail) with (String "/" (Str.join_slash tail)).
    rewrite bool_decide_eq_false_2 by done. unfold pathlib.parse_path.
    rewrite bool_decide_eq_false_2 by done.
    by rewrite splitroot_one, Hsplit.
  - change ("//" +:+ Str.join_slash tail)
      with (String "/" (String "/" (Str.join_slash tail))).
    rewrite bool_decide_eq_false_2 by done. unfold pathlib.parse_path.
    rewrite bool_decide_eq_false_2 by done.
    by rewrite splitroot_two, Hsplit.
Qed.

Lemma splitroot_valid s : valid_root (posixpath.splitroot s).1.
Proof.
  unfold posixpath.splitroot, valid_root.
  destruct (negb (Str.startswith s "/")); [by left|].
  destruct (negb (Str.startswith s "//") || Str.startswith s "///"); simpl; eauto.
Qed.

Lemma parse_path_valid s :
  valid_root (pathlib.parse_path s).1 ∧ Forall valid_part (pathlib.parse_path s).2.
Proof.
  unfold pathlib.parse_path. case_bool_decide.
  { split; [by left|apply Forall_nil_2]. }
  pose proof (splitroot_valid s) as Hroot.
  destruct (posixpath.splitroot s) as [root rel]. simpl. split; [done|].
  apply Forall_forall. intros x [[Hx1 Hx2] Hin]%list_elem_of_filter.
  split; [done|]. split; [done|].
  pose proof (split_slash_free rel) as Hfree.
  rewrite Forall_forall in Hfree. by apply Hfree.
Qed.

(** A path built from its own text is itself. *)
Lemma Path_idempotent s :
  pathlib.Path (Path_str (pathlib.Path s)) = pathlib.Path s.
Proof.
  unfold pathlib.Path at 2 3.
  destruct (parse_path_valid s) as [Hroot Htail].
  destruct (pathlib.parse_path s) as [root tail]. simpl in *.
  unfold pathlib.Path. by rewrite parse_format.
Qed.

(** ** URLs *)

(** C5, as the code has it: two URLs are equal exactly when their hosts,
    the texts of their paths and their schemes are equal.  The text of a
    path is what [pathlib] makes of it: no empty component and no [.]
    component is left, so duplicate separators, a trailing separator and
    [.] do not distinguish two URLs, while [..] is kept.  It is [furl]'s
    [normalize], applied to the root and to every href before the path is
    built, that removes [..]: through it [/a/b/../c] and [/a/c] give the
    same URL. *)
Theorem URL_equality :
  (∀ u1 u2 : URL,
     u1 = u2 ↔
     URL_host u1 = URL_host u2 ∧
     Path_str (URL_path u1) = Path_str (URL_path u2) ∧
     URL_scheme u1 = URL_scheme u2)
  ∧ (∀ s, Forall valid_part (pathlib.parse_path s).2)
  ∧ (∀ host, URL_new host (pathlib.Path "/a/./b//c/") = URL_new host (pathlib.Path "/a/b/c"))
  ∧ (∀ host, URL_new host (pathlib.Path "/a/b/../c") = URL_new host (mkPath "/a/b/../c"))
  ∧ (∀ host,
       URL_new host (pathlib.Path (furl_path.normalize "/a/b/../c"))
       = URL_new host (pathlib.Path (furl_path.normalize "/a/c"))).
Proof.
  split; [|split; [apply parse_path_valid|by repeat split]].
  intros [h1 [p1] s1] [h2 [p2] s2]. simpl. split.
  - by intros [= -> -> ->].
  - by intros (-> & -> & ->).
Qed.

(** C5, as stated, fails: the two URLs have the same host, the same scheme
    and paths with the same normal form, and they are not equal. *)
Lemma dotdot_keeps_URLs_apart :
  let u1 := URL_new (Some "h") (pathlib.Path "/a/b/../c") in
  let u2 := URL_new (Some "h") (pathlib.Path "/a/c") in
  (URL_host u1 = URL_host u2
   ∧ posixpath.normpath (Path_str (URL_path u1))
     = posixpath.normpath (Path_str (URL_path u2))
   ∧ furl_path.normalize (Path_str (URL_path u1))
     = furl_path.normalize (Path_str (URL_path u2))
   ∧ URL_scheme u1 = URL_scheme u2)
  ∧ u1 ≠ u2.
Proof. by repeat split. Qed.

(** C6, as the code has it: the joined URL has the host of the URL and the
    default scheme; an absolute path replaces the path of the URL, so
    [/x/y] joined to [/a/b] gives [/x/y]; a relative path is appended to
    the path of the URL, and [..] stays in the result: [../c] joined to
    [/a/b] gives [/a/b/../c], and [x/y] gives [/a/b/x/y]. *)
Theorem join_path_appends (self : URL) (s : string) :
  let other := pathlib.Path s in
  URL_host (URL_join_path self other) = URL_host self
  ∧ URL_scheme (URL_join_path self other) = default_scheme
  ∧ (Str.startswith (Path_str other) "/" = true →
     URL_path (URL_join_path self other) = other)
  ∧ (∀ host,
       URL_join_path (URL_new host (pathlib.Path "/a/b")) (pathlib.Path "/x/y")
       = URL_new host (mkPath "/x/y"))
  ∧ (∀ host,
       URL_join_path (URL_new host (pathlib.Path "/a/b")) (pathlib.Path "../c")
       = URL_new host (mkPath "/a/b/../c"))
  ∧ (∀ host,
       URL_join_path (URL_new host (pathlib.Path "/a/b")) (pathlib.Path "x/y")
       = URL_new host (mkPath "/a/b/x/y")).
Proof.
  intros other. split; [done|]. split; [done|]. split; [|by repeat split].
  intros Habs. unfold URL_join_path, pathlib.truediv, posixpath.join.
  cbn [URL_path URL_new]. rewrite Habs. apply Path_idempotent.
Qed.

Lemma join_path_appends_witness :
  let self := URL_new (Some "h") (pathlib.Path "/a/b") in
  let other := pathlib.Path "/x/y" in
  Str.startswith (Path_str other) "/" = true
  ∧ URL_path (URL_join_path self other) = other.
Proof.
  intros self other.
  assert (Habs : Str.startswith (Path_str other) "/" = true) by reflexivity.
  split; [exact Habs|].
  exact (proj1 (proj2 (proj2 (join_path_appends self "/x/y"))) Habs).
Defined.

(** C6, as stated, fails: [../c] joined to [/a/b] is not [/a/c]. *)
Lemma join_path_keeps_dotdot :
  URL_path (URL_join_path (URL_new (Some "h") (pathlib.Path "/a/b"))
                          (pathlib.Path "../c"))
  ≠ pathlib.Path "/a/c".
Proof. done. Qed.

(** What [set_host] does to each field: the host is the one given, the
    path is kept, and the scheme is the default one, which is the scheme of
    the URL when the URL was built without a scheme, as all the URLs of the
    program are. *)
Lemma set_host_fields (u : URL) (h : option string) :
  URL_host (URL_set_host u h) = h
  ∧ URL_path (URL_set_host u h) = URL_path u
  ∧ URL_scheme (URL_set_host u h) = default_scheme
  ∧ (URL_scheme u = default_scheme →
     URL_scheme (URL_set_host u h) = URL_scheme u).
Proof. by repeat split. Qed.


(** ** Link extraction *)

Section Links.
Context `{Libraries}.

Lemma get_urls_step_yields page a us :
  get_urls_step page a = Ok us → anchor_yields page a us.
Proof.
  unfold get_urls_step.
  destruct (Tag_get "href" (attrs a)) as [s|] eqn:Hhref.
  2: { intros [= <-]. by apply yields_no_href. }
  destruct (furl_furl s) as [href|e] eqn:Hfurl; [|done].
  destruct (furl_host href) as [h|] eqn:Hhost.
  - case_bool_decide as Hsome; [|done]. simpl.
    case_bool_decide as Hne; simpl.
    { intros [= <-]. by eapply yields_other_host. }
    destruct (Str.contains_at (furl_path href)) eqn:Hat.
    { intros [= <-]. by eapply yields_at. }
    intros [= <-]. eapply yields_link; try done.
    right. rewrite Hhost. by destruct (decide (Some h = URL_host (Page_url page))).
  - case_bool_decide as Hsome; [done|]. simpl.
    destruct (Str.contains_at (furl_path href)) eqn:Hat.
    { intros [= <-]. by eapply yields_at. }
    intros [= <-]. eapply yields_link; try done. left. by rewrite Hhost.
Qed.

Lemma get_urls_loop_yields page l urls :
  get_urls_loop page l = Ok urls →
  ∃ yields, Forall2 (anchor_yields page) l yields ∧ urls = concat yields.
Proof.
  revert urls. induction l as [|a l IH]; intros urls; simpl.
  - intros [= <-]. exists []. split; [apply Forall2_nil_2|done].
  - destruct (get_urls_step page a) as [us|e] eqn:Hstep; [|done].
    destruct (get_urls_loop page l) as [us'|e]; [|done].
    intros [= <-]. destruct (IH us' eq_refl) as (yields & Hall & ->).
    exists (us :: yields). split; [|done].
    apply Forall2_cons. split; [by apply get_urls_step_yields|done].
Qed.


End Links.



(** ** The report *)

Lemma Forall2_with_elem_of {A B} (P : A → B → Prop) l k :
  Forall2 P l k → Forall2 (λ x y, x ∈ l ∧ P x y) l k.
Proof.
  induction 1 as [|x y l k Hxy Hlk IH]; [apply Forall2_nil_2|].
  apply Forall2_cons. split; [split; [apply elem_of_cons; by left|done]|].
  eapply Forall2_impl; [exact IH|]. intros x' y' [Hin HP]. split; [|done].
  apply elem_of_cons. by right.
Qed.

Lemma Forall2_right {A B} (P : A → B → Prop) (Q : B → Prop) l k :
  Forall2 P l k → (∀ x y, P x y → Q y) → Forall Q k.
Proof.
  intros HP HQ. induction HP as [|x y l k Hxy _ IH]; [apply Forall_nil_2|].
  apply Forall_cons. split; [by eapply HQ|done].
Qed.

Section Report.
Context `{Libraries}.
Variables (target : Site) (cache : PageCache).

(** The loop of [main], from any world. *)
Lemma report_loop pages : ∀ w w',
  for_each (λ _ item,
    let page := item.2 in
    let target_url := URL_set_host (Page_url page) (URL_host (Site_url target)) in
    LOG (LogChecking item.1 target_url);;
    target_page ← PageCache_get_page cache target_url;
    write (Line (row_of page target_page))) pages () w = (Ok (), w') →
  ∃ rows new,
    stdout w' = stdout w ++ (Line <$> rows) ∧
    log w' = log w ++ new ∧
    lookups new = target_url_of target <$> pages.*2 ∧
    disk_stable (disk w) (disk w') ∧
    Forall2 (λ item row, ∃ target_page,
      disk w' !! cache_path (target_url_of target item.2) = Some (Pickled target_page) ∧
      row = row_of item.2 target_page) pages rows ∧
    ∀ urls, collision_free_on urls → lookups new ⊆ urls →
      answers_for urls (disk w) → answers_for urls (disk w').
Proof.
  induction pages as [|[url page] pages IH]; intros w w' Hrun.
  - inversion Hrun; subst. exists [], []. rewrite !app_nil_r.
    split; [done|]. split; [done|]. split; [done|].
    split; [by intros ??|]. split; [apply Forall2_nil_2|done].
  - simpl in Hrun.
    apply bind_inv in Hrun as [([] & w3 & Hbody & Hrun)|(e & _ & ?)]; [|done].
    rewrite bind_LOG in Hbody.
    apply bind_inv in Hbody as [(target_page & w2 & Hget & Hwrite)|(e & _ & ?)];
      [|done].
    inversion Hwrite; subst w3; clear Hwrite.
    change (URL_set_host (Page_url page) (URL_host (Site_url target)))
      with (target_url_of target page) in Hget.
    set (w1 := log_step (LogChecking url (target_url_of target page)) w) in *.
    destruct (PageCache_get_page_stable _ _ _ _ _ Hget) as [Hst Hin].
    pose proof Hget as Hget'.
    apply PageCache_get_page_effect in Hget as (gnew & Hlog2 & Hl2 & Hout2 & _).
    apply IH in Hrun as (rows & new & Hout & Hlog & Hl & Hst' & Hrows & Hans).
    simpl in Hout, Hlog, Hst'.
    exists (row_of page target_page :: rows),
           ([LogChecking url (target_url_of target page)] ++ gnew ++ new).
    split. { rewrite Hout, Hout2. simpl. by rewrite <- app_assoc. }
    split. { rewrite Hlog, Hlog2. simpl. by rewrite <- !app_assoc. }
    split. { rewrite !lookups_app, Hl2, Hl. done. }
    split. { intros name p Hp. by apply Hst', Hst. }
    split.
    + apply Forall2_cons. split; [|done].
      exists target_page. split; [|done]. apply Hst'. by apply Hin.
    + intros urls Hfree Hsub Hd. rewrite !lookups_app, Hl2 in Hsub.
      apply Hans; [done| |].
      * intros u Hu. apply Hsub. simpl. apply elem_of_cons. by right.
      * assert (Hu : target_url_of target page ∈ urls)
          by (apply Hsub; simpl; apply elem_of_cons; by left).
        assert (Hd1 : answers_for urls (disk w1)) by exact Hd.
        by destruct (PageCache_get_page_answers _ _ _ _ _ _ Hfree Hu Hd1 Hget').
Qed.

End Report.



(** The end-to-end scenario of the specification: four rows, in the order
    of discovery, and the row of [/missing] shows 200 against 404. *)
Example scenario_report :
  let L := Toy.libraries Toy.scenario in
  let run := @main L 10 "//h" "//t" (pathlib.Path "/tmp/cache") Toy.empty_world in
  run.1 = Ok ()
  ∧ (λ l, match l with
          | Header => None
          | Line row =>
              Some (original_path row, original_status_code row,
                    target_status_code row)
          end) <$> stdout run.2
    = [None; Some ("/", 200%Z, 200%Z); Some ("/a", 200%Z, 200%Z);
       Some ("/missing", 200%Z, 404%Z); Some ("/b", 200%Z, 200%Z)]
  ∧ length (requests run.2) = 8.
Proof. vm_compute. done. Qed.

(** * Further properties of the program *)

(** ** What a call of the cache leaves alone *)

(** X: [PageCache.get_page] writes nothing to standard output and touches
    no file but the artifact of the URL it is asked for. *)
Theorem get_page_touches_one_file `{Libraries} cache url w r w' :
  PageCache_get_page cache url w = (r, w') →
  stdout w' = stdout w
  ∧ ∀ name, name ≠ cache_path url → disk w' !! name = disk w !! name.
Proof.
  intros Hrun. apply PageCache_get_page_inv in Hrun
    as [(page & Hk & -> & ->)|[(Hk & resp & Hget & -> & ->)|(Hk & e & Hget & -> & ->)]];
    simpl; (split; [done|]); intros name Hne.
  - done.
  - by rewrite lookup_insert_ne.
  - by rewrite lookup_delete_ne.
Qed.

Lemma get_page_touches_one_file_witness :
  let L := Toy.libraries Toy.cycle in
  let cache := mkPageCache (pathlib.Path "/tmp/cache") in
  let w := mkWorld {[ "other.pickle" := Corrupt ]} [] [] [Header] in
  let run := @PageCache_get_page L cache (Toy.url "/a") w in
  stdout run.2 = stdout w
  ∧ ∀ name, name ≠ @cache_path L (Toy.url "/a") → disk run.2 !! name = disk w !! name.
Proof.
  intros L cache w run.
  exact (@get_page_touches_one_file L cache (Toy.url "/a") w run.1 run.2
           (surjective_pairing run)).
Defined.

(** X: once [PageCache.get_page] has returned a page for a URL, the next
    call for that URL returns the same page from the artifact: it sends no
    request and leaves the disk as it is, whatever the server would answer
    now. *)
Theorem get_page_then_hit `{Libraries} cache url w page w1 :
  PageCache_get_page cache url w = (Ok page, w1) →
  PageCache_get_page cache url w1
  = (Ok page, log_step (LogReading url (cache_path url)) w1).
Proof.
  intros Hrun. apply PageCache_get_page_hit.
  apply PageCache_get_page_inv in Hrun
    as [(stored & Hk & [= ->] & ->)|[(_ & resp & _ & [= ->] & ->)|(_ & e & _ & [=] & _)]].
  - done.
  - apply lookup_insert_eq.
Qed.

Lemma get_page_then_hit_witness :
  let L := Toy.libraries Toy.cycle in
  let cache := mkPageCache (pathlib.Path "/tmp/cache") in
  let url := Toy.url "/a" in
  let page := mkPage url (mkResponse 200 "/b /a") in
  let run := @PageCache_get_page L cache url Toy.empty_world in
  run = (Ok page, run.2)
  ∧ @PageCache_get_page L cache url run.2
    = (Ok page, log_step (LogReading url (@cache_path L url)) run.2).
Proof.
  intros L cache url page run.
  assert (Hok : run.1 = Ok page) by (vm_compute; reflexivity).
  assert (Hrun : run = (Ok page, run.2))
    by (rewrite <- Hok; apply surjective_pairing).
  split; [exact Hrun|].
  exact (@get_page_then_hit L cache url Toy.empty_world page run.2 Hrun).
Defined.

(** ** What a walk leaves alone *)

Section WalkFrame.
Context `{Libraries}.
Variables (cache : PageCache) (w0 : World).

Lemma only_adds_refl : only_adds w0 w0.
Proof.
  split; [done|]. split; [by intros ??|].
  split; exists []; by rewrite app_nil_r.
Qed.

Lemma only_adds_log w r : only_adds w0 w → only_adds w0 (log_step r w).
Proof.
  intros (Hout & Hst & Hreq & new & Hlog). split; [done|]. split; [done|].
  split; [done|]. exists (new ++ [r]). simpl. by rewrite Hlog, <- app_assoc.
Qed.

Lemma only_adds_get url w r w' :
  only_adds w0 w → PageCache_get_page cache url w = (r, w') → only_adds w0 w'.
Proof.
  intros (Hout & Hst & [more Hreq] & new & Hlog) Hrun.
  destruct (PageCache_get_page_stable cache _ _ _ _ Hrun) as [Hst' _].
  apply PageCache_get_page_effect in Hrun
    as (gnew & Hlog' & _ & Hout' & [(_ & _ & Hr & _)|(_ & _ & Hr & _)]).
  - split; [congruence|]. split; [by intros ?? ?%Hst%Hst'|].
    split; [exists more; congruence|].
    exists (new ++ gnew). by rewrite Hlog', Hlog, <- app_assoc.
  - split; [congruence|]. split; [by intros ?? ?%Hst%Hst'|].
    split; [exists (more ++ [URL_furl_tostr url]); by rewrite Hr, Hreq, <- app_assoc|].
    exists (new ++ gnew). by rewrite Hlog', Hlog, <- app_assoc.
Qed.

Lemma process_page_only_adds depth site page w r w' :
  only_adds w0 w →
  process_page depth site page cache w = (r, w') → only_adds w0 w'.
Proof.
  intros Hinv Hrun.
  eapply (process_page_rule cache (λ _, only_adds w0) (λ _, only_adds w0)) in Hrun;
    [by destruct r| | | |exact Hinv].
  - intros. by apply only_adds_log.
  - done.
  - intros _ url w1 r1 w1' Hinv1 _ Hget.
    eapply only_adds_get in Hget; [|done]. by destruct r1.
Qed.

End WalkFrame.

(** X: a walk, however it ends, writes nothing to standard output, leaves
    every valid artifact of the cache as it was, and only adds to the
    requests sent and to the log. *)
Theorem walk_only_adds `{Libraries} depth site cache w r w' :
  walk_site depth site cache w = (r, w') →
  stdout w' = stdout w
  ∧ disk_stable (disk w) (disk w')
  ∧ (∃ more, requests w' = requests w ++ more)
  ∧ (∃ new, log w' = log w ++ new).
Proof.
  unfold walk_site. rewrite bind_LOG. intros Hrun.
  assert (Hinv : only_adds w (log_step (LogWalking site) w))
    by apply only_adds_log, only_adds_refl.
  apply bind_inv in Hrun as [(root & w1 & Hget & Hrun)|(e & Hget & ->)].
  - eapply only_adds_get in Hget; [|done].
    by eapply process_page_only_adds in Hrun.
  - by eapply only_adds_get in Hget.
Qed.

Lemma walk_only_adds_witness :
  let L := Toy.libraries Toy.broken in
  let cache := mkPageCache (pathlib.Path "/tmp/cache") in
  let w := mkWorld {[ "other.pickle" := Pickled (mkPage (Toy.url "/x") (mkResponse 200 "")) ]}
             ["earlier"] [] [Header] in
  let run := @walk_site L 10 (mkSite (Toy.url "/") []) cache w in
  stdout run.2 = stdout w
  ∧ disk_stable (disk w) (disk run.2)
  ∧ (∃ more, requests run.2 = requests w ++ more)
  ∧ (∃ new, log run.2 = log w ++ new).
Proof.
  intros L cache w run.
  exact (@walk_only_adds L 10 (mkSite (Toy.url "/") []) cache w run.1 run.2
           (surjective_pairing run)).
Defined.

(** ** The page map only grows *)

Lemma keys_setitem_extends k v d : ∃ added, keys (dict_setitem k v d) = keys d ++ added.
Proof.
  destruct (dict_contains k d) eqn:Hk.
  - exists []. by rewrite keys_setitem_old, app_nil_r.
  - exists [k]. by rewrite keys_setitem_new.
Qed.

Lemma extends_setitem site site1 page :
  extends site site1 →
  extends site (mkSite (Site_url site1)
                  (dict_setitem (Page_url page) page (Site_pages site1))).
Proof.
  intros (Hurl & added & Hkeys). split; [done|]. simpl.
  destruct (keys_setitem_extends (Page_url page) page (Site_pages site1))
    as [added' ->].
  exists (added ++ added'). by rewrite Hkeys, <- app_assoc.
Qed.

(** X: a walk that completes returns the site it was given with the same
    root URL and with every key the page map had, in the same order and
    before the keys it added: no page is ever removed from the map. *)
Theorem walk_keeps_pages `{Libraries} depth site cache w site' w' :
  walk_site depth site cache w = (Ok site', w') →
  Site_url site' = Site_url site
  ∧ ∃ added, keys (Site_pages site') = keys (Site_pages site) ++ added.
Proof.
  unfold walk_site. rewrite bind_LOG. intros Hrun.
  apply bind_inv in Hrun as [(root & w1 & _ & Hrun)|(e & _ & [=])].
  eapply (process_page_rule cache (λ site1 _, extends site site1) (λ _ _, True))
    in Hrun; [exact Hrun|done|done| |].
  - intros site1 url w2 [page|e] w2' Hext _ _; [|done].
    by apply extends_setitem.
  - apply extends_setitem. split; [done|]. exists []. by rewrite app_nil_r.
Qed.

Lemma walk_keeps_pages_witness :
  let L := Toy.libraries Toy.cycle in
  let cache := mkPageCache (pathlib.Path "/tmp/cache") in
  let old := mkPage (Toy.url "/old") (mkResponse 200 "") in
  let site := mkSite (Toy.url "/a") [(Toy.url "/old", old)] in
  let run := @walk_site L 10 site cache Toy.empty_world in
  let site' := match run.1 with Ok s => s | Raise _ => site end in
  run = (Ok site', run.2)
  ∧ Site_url site' = Site_url site
  ∧ ∃ added, keys (Site_pages site') = keys (Site_pages site) ++ added.
Proof.
  intros L cache old site run site'.
  assert (Hok : run.1 = Ok site') by (vm_compute; reflexivity).
  assert (Hrun : run = (Ok site', run.2))
    by (rewrite <- Hok; apply surjective_pairing).
  split; [exact Hrun|].
  exact (@walk_keeps_pages L 10 site cache Toy.empty_world site' run.2 Hrun).
Defined.

(** ** An href that [furl] rejects *)

Section BadHref.
Context `{Libraries}.

Lemma get_urls_step_raise page a e :
  get_urls_step page a = Raise e ↔ href_raises a e.
Proof.
  unfold get_urls_step, href_raises.
  destruct (Tag_get "href" (attrs a)) as [s|].
  - destruct (furl_furl s) as [href|e'] eqn:Hfurl.
    + split.
      * repeat case_match; done.
      * intros (s' & [= <-] & Hs'). congruence.
    + split.
      * intros [= ->]. eauto.
      * intros (s' & [= <-] & Hs'). congruence.
  - split; [done|]. by intros (s' & ? & _).
Qed.

Lemma get_urls_step_ok page a :
  (∃ us, get_urls_step page a = Ok us) ↔ href_parses a.
Proof.
  unfold get_urls_step, href_parses.
  destruct (Tag_get "href" (attrs a)) as [s|].
  - destruct (furl_furl s) as [href|e'] eqn:Hfurl.
    + split.
      * intros _ s' [= <-]. eauto.
      * intros _. repeat case_match; eauto.
    + split.
      * by intros [us ?].
      * intros Hp. destruct (Hp s eq_refl) as [href Hhref]. congruence.
  - split; [by intros _ s' ?|eauto].
Qed.

Lemma get_urls_loop_raise page l e :
  get_urls_loop page l = Raise e ↔
  ∃ pre a post, l = pre ++ a :: post ∧ Forall href_parses pre ∧ href_raises a e.
Proof.
  induction l as [|b l IH]; simpl.
  - split; [done|]. intros (pre & a & post & Heq & _). by destruct pre.
  - destruct (get_urls_step page b) as [us|e'] eqn:Hstep.
    + assert (Hb : href_parses b) by (apply (get_urls_step_ok page); eauto).
      destruct (get_urls_loop page l) as [us'|e''].
      * split; [done|]. intros (pre & a & post & Heq & Hpre & Ha).
        destruct pre as [|b' pre]; simplify_eq/=.
        -- apply (get_urls_step_raise page) in Ha. congruence.
        -- apply Forall_cons in Hpre as [_ Hpre].
           enough (@Ok (list URL) us' = Raise e) by done.
           apply IH. eauto 10.
      * split.
        -- intros [= ->]. destruct (proj1 IH eq_refl) as (pre & a & post & -> & Hpre & Ha).
           exists (b :: pre), a, post. split; [done|]. split; [|done].
           by apply Forall_cons.
        -- intros (pre & a & post & Heq & Hpre & Ha).
           destruct pre as [|b' pre]; simplify_eq/=.
           ++ apply (get_urls_step_raise page) in Ha. congruence.
           ++ apply Forall_cons in Hpre as [_ Hpre]. apply IH. eauto 10.
    + apply get_urls_step_raise in Hstep. split.
      * intros [= ->]. exists [], b, l. split; [done|]. split; [apply Forall_nil_2|done].
      * intros (pre & a & post & Heq & Hpre & Ha).
        destruct pre as [|b' pre]; simplify_eq/=.
        -- destruct Hstep as (s & Hs & Hr), Ha as (s' & Hs' & Hr'). congruence.
        -- apply Forall_cons in Hpre as [Hb _].
           destruct Hstep as (s & Hs & Hr). destruct (Hb s Hs) as [href Hhref].
           congruence.
Qed.

End BadHref.


(** X: when [furl] rejects an href of the page, [process_page] raises as
    soon as it has logged the page: the links are listed before the loop
    starts, so none of them is fetched, not even those that come before
    the rejected one. *)
Theorem bad_href_stops_process_page `{Libraries} depth site page cache w
    pre a post e :
  find_all_a (content (Page_response page)) = pre ++ a :: post →
  Forall href_parses pre →
  href_raises a e →
  process_page (S depth) site page cache w
  = (Raise e, log_step (LogProcessPage page) w).
Proof.
  intros Hanchors Hpre Ha.
  assert (Hurls : Page_get_urls page = Raise e)
    by (apply get_urls_loop_raise; eauto 10).
  simpl. rewrite bind_LOG. unfold mbind, M_bind, bind, lift. by rewrite Hurls.
Qed.

Lemma bad_href_stops_process_page_witness :
  let L := Toy.libraries Toy.cycle in
  let cache := mkPageCache (pathlib.Path "/tmp/cache") in
  let page := mkPage (Toy.url "/p") (mkResponse 200 "/a !bad /b") in
  let site := mkSite (Toy.url "/p") [] in
  let pre := [mkTag [("href", "/a")]] in
  let a := mkTag [("href", "!bad")] in
  let post := [mkTag [("href", "/b")]] in
  (@find_all_a L (content (Page_response page)) = pre ++ a :: post
   ∧ Forall (@href_parses L) pre ∧ @href_raises L a (ValueError "!bad"))
  ∧ @process_page L 3 site page cache Toy.empty_world
    = (Raise (ValueError "!bad"), log_step (LogProcessPage page) Toy.empty_world).
Proof.
  intros L cache page site pre a post.
  assert (H1 : @find_all_a L (content (Page_response page)) = pre ++ a :: post)
    by reflexivity.
  assert (H2 : Forall (@href_parses L) pre).
  { apply Forall_singleton. intros s [= <-]. by eexists. }
  assert (H3 : @href_raises L a (ValueError "!bad")) by (by exists "!bad").
  split; [exact (conj H1 (conj H2 H3))|].
  exact (@bad_href_stops_process_page L 2 site page cache Toy.empty_world
           pre a post _ H1 H2 H3).
Defined.

(** ** The roots given to [main] *)

Lemma endswith_slash_app s : Str.endswith_slash (s +:+ "/") = true.
Proof.
  induction s as [|a s IH]; [done|].
  rewrite app_String. destruct s as [|b s]; [done|].
  rewrite app_String in *. exact IH.
Qed.

Lemma with_slash_idemp s : with_slash (with_slash s) = with_slash s.
Proof.
  unfold with_slash. destruct (Str.endswith_slash s) eqn:Hs; simpl.
  - by rewrite Hs.
  - by rewrite endswith_slash_app.
Qed.

(** X: [main] treats a root written with its final [/] and the same root
    written without it alike: the two runs are the same. *)
Theorem main_ignores_final_slash `{Libraries} depth original_site target_site
    cache_path :
  main depth (with_slash original_site) (with_slash target_site) cache_path
  = main depth original_site target_site cache_path.
Proof. by rewrite !main_with_slash, !with_slash_idemp. Qed.

(** X: when [furl] rejects one of the two roots, [main] raises its
    exception before anything is done: no request is sent, no file is
    touched, and nothing is logged or printed. *)
Theorem unparsable_root_stops_main `{Libraries} depth original_site target_site
    cache_path w e :
  furl_furl (with_slash original_site) = Raise e
  ∨ ((∃ f, furl_furl (with_slash original_site) = Ok f)
     ∧ furl_furl (with_slash target_site) = Raise e) →
  main depth original_site target_site cache_path w = (Raise e, w).
Proof.
  rewrite main_with_slash. unfold site_of, mbind, M_bind, bind, lift.
  intros [Ho|[[f Ho] Ht]]; rewrite Ho; [done|]. simpl. by rewrite Ht.
Qed.

Lemma unparsable_root_stops_main_witness :
  let L := Toy.libraries Toy.cycle in
  let e := ValueError "!target/" in
  (@furl_furl L (with_slash "//h") = Raise e
   ∨ ((∃ f, @furl_furl L (with_slash "//h") = Ok f)
      ∧ @furl_furl L (with_slash "!target") = Raise e))
  ∧ @main L 10 "//h" "!target" (pathlib.Path "/tmp/cache") Toy.empty_world
    = (Raise e, Toy.empty_world).
Proof.
  intros L e.
  assert (Hroots : @furl_furl L (with_slash "//h") = Raise e
                   ∨ ((∃ f, @furl_furl L (with_slash "//h") = Ok f)
                      ∧ @furl_furl L (with_slash "!target") = Raise e)).
  { right. split; [by eexists|reflexivity]. }
  split; [exact Hroots|].
  exact (@unparsable_root_stops_main L 10 "//h" "!target"
           (pathlib.Path "/tmp/cache") Toy.empty_world e Hroots).
Defined.

(** ** A report cut short *)

(** X: the report is written as it is computed.  However [main_report]
    ends, standard output has received the header and then the rows of the
    first pages of the map, in order; all of them when it completes, and
    fewer when a fetch for the target raised. *)
Theorem report_is_a_prefix `{Libraries} site target cache w r w' :
  main_report site target cache w = (r, w') →
  ∃ rows,
    stdout w' = stdout w ++ Header :: (Line <$> rows) ∧
    original <$> rows
    = (λ item, URL_furl_tostr (Page_url item.2))
        <$> take (length rows) (Site_pages site) ∧
    match r with
    | Ok _ => length rows = length (Site_pages site)
    | Raise _ => length rows < length (Site_pages site)
    end.
Proof.
  intros Hrun. unfold main_report in Hrun.
  apply bind_inv in Hrun as [([] & w1 & Hhead & Hrun)|(e & Hhead & _)]; [|done].
  inversion Hhead; subst w1; clear Hhead.
  apply report_loop_prefix in Hrun as (rows & Hout & Horig & Hlen).
  exists rows. simpl in Hout. by rewrite <- app_assoc in Hout.
Qed.

Lemma report_is_a_prefix_witness :
  let L := Toy.libraries Toy.broken in
  let cache := mkPageCache (pathlib.Path "/tmp/cache") in
  let site := mkSite (Toy.url "/")
    [(Toy.url "/ok", mkPage (Toy.url "/ok") (mkResponse 200 ""));
     (Toy.url "/broken", mkPage (Toy.url "/broken") (mkResponse 200 ""));
     (Toy.url "/later", mkPage (Toy.url "/later") (mkResponse 200 ""))] in
  let target := mkSite (Toy.url "/") [] in
  let run := @main_report L site target cache Toy.empty_world in
  ∃ rows,
    stdout run.2 = stdout Toy.empty_world ++ Header :: (Line <$> rows) ∧
    original <$> rows
    = (λ item, @URL_furl_tostr L (Page_url item.2))
        <$> take (length rows) (Site_pages site) ∧
    match run.1 with
    | Ok _ => length rows = length (Site_pages site)
    | Raise _ => length rows < length (Site_pages site)
    end.
Proof.
  intros L cache site target run.
  exact (@report_is_a_prefix L site target cache Toy.empty_world run.1 run.2
           (surjective_pairing run)).
Defined.

(** On the small instance the report stops after the row of [/ok]. *)
Example report_cut_short :
  let L := Toy.libraries Toy.broken in
  let cache := mkPageCache (pathlib.Path "/tmp/cache") in
  let original := mkSite (Toy.url "/")
    [(Toy.url "/ok", mkPage (Toy.url "/ok") (mkResponse 200 ""));
     (Toy.url "/broken", mkPage (Toy.url "/broken") (mkResponse 200 ""));
     (Toy.url "/later", mkPage (Toy.url "/later") (mkResponse 200 ""))] in
  let run := @main_report L original (mkSite (Toy.url "/") []) cache Toy.empty_world in
  run.1 = Raise (HTTPError "ConnectError") ∧ length (stdout run.2) = 2.
Proof. vm_compute. done. Qed.

(** ** A walk stays on the host of its root *)

Lemma Page_get_urls_host `{Libraries} page urls :
  Page_get_urls page = Ok urls →
  Forall (λ u, URL_host u = URL_host (Page_url page)
               ∧ URL_scheme u = default_scheme) urls.
Proof.
  intros Hurls. apply get_urls_loop_yields in Hurls as (yields & Hall & ->).
  apply Forall_concat.
  induction Hall as [|a us l yields Ha _ IH]; [apply Forall_nil_2|].
  apply Forall_cons. split; [|done].
  destruct Ha; try apply Forall_nil_2. by apply Forall_singleton.
Qed.

(** The keys a walk adds: the root, and URLs on the host of the root built
    without a scheme of their own. *)
Lemma walk_site_host `{Libraries} depth site cache urls w site' w' :
  collision_free_on urls →
  answers_for urls (disk w) →
  walk_site depth site cache w = (Ok site', w') →
  asked w w' ⊆ urls →
  ∀ url, url ∈ keys (Site_pages site') →
    url ∈ keys (Site_pages site) ∨ url = Site_url site
    ∨ (URL_host url = URL_host (Site_url site) ∧ URL_scheme url = default_scheme).
Proof.
  intros Hfree Hd Hrun Hasked.
  apply walk_site_inv in Hrun as [_ (r1 & w1 & Hget & Hcase)].
  destruct r1 as [root|e]; [|by destruct Hcase as ([=] & _)].
  destruct Hcase as [Hrun Heq]. rewrite Heq in Hasked.
  assert (Hu : Site_url site ∈ urls) by (apply Hasked, elem_of_cons; by left).
  assert (Hasked1 : asked w1 w' ⊆ urls)
    by (intros u Hin; apply Hasked, elem_of_cons; by right).
  assert (Hd0 : answers_for urls (disk (log_step (LogWalking site) w))) by exact Hd.
  destruct (PageCache_get_page_answers _ _ _ _ _ _ Hfree Hu Hd0 Hget) as [Hd1 Hurl].
  assert (Page_url root = Site_url site) as Hroot by (by apply Hurl).
  set (h := URL_host (Site_url site)).
  set (Inv := λ (site1 : Site) (w2 : World),
         answers_for urls (disk w2)
         ∧ ∀ url, url ∈ keys (Site_pages site1) →
             url ∈ keys (Site_pages site) ∨ url = Site_url site
             ∨ (URL_host url = h ∧ URL_scheme url = default_scheme)).
  assert (Hstep : ∀ site1 w2 w3 page url,
    Inv site1 w2 →
    url = Site_url site ∨ (URL_host url = h ∧ URL_scheme url = default_scheme) →
    answers_for urls (disk w3) →
    Inv (mkSite (Site_url site1) (dict_setitem url page (Site_pages site1))) w3).
  { intros site1 w2 w3 page url [_ Hk] Hh Hd3. split; [done|]. simpl.
    intros u Hin.
    destruct (dict_contains url (Site_pages site1)) eqn:Hc.
    - rewrite keys_setitem_old in Hin by done. by apply Hk.
    - rewrite keys_setitem_new in Hin by done.
      apply elem_of_app in Hin as [Hin| ->%list_elem_of_singleton]; [by apply Hk|].
      by right. }
  eapply (process_page_rule_on cache urls Inv (λ _ _, True)
            (λ page, URL_host (Page_url page) = h)) in Hrun.
  - by destruct Hrun as [_ Hk].
  - intros site1 w2 rec _ [Hd2 Hk]. by split.
  - done.
  - intros site1 page links url w2 r w2' Hin HP Hlinks Hlink [Hd2 Hk] _ Hget2.
    destruct r as [new_page|e]; [|done].
    destruct (PageCache_get_page_answers _ _ _ _ _ _ Hfree Hin Hd2 Hget2)
      as [Hd3 Hurl2].
    assert (Page_url new_page = url) as Hnew by (by apply Hurl2).
    apply Page_get_urls_host in Hlinks. rewrite Forall_forall in Hlinks.
    destruct (Hlinks _ Hlink) as [Hh Hs]. rewrite HP in Hh.
    split; [by rewrite Hnew|]. rewrite Hnew.
    apply (Hstep site1 w2); [by split| |done]. by right.
  - by rewrite Hroot.
  - rewrite Hroot. apply (Hstep site w); [|by left|done].
    split; [done|]. intros u Hin. by left.
  - done.
Qed.

(** X: in a walk that completes, when no two of the URLs asked of the
    cache share a file name and the cache held, under their file names, no
    page of another URL, every key added to the page map has the host of
    the root URL: the walk never leaves the site. *)
Theorem walk_stays_on_host `{Libraries} depth site cache w site' w' :
  collision_free_on (asked w w') →
  answers_for (asked w w') (disk w) →
  walk_site depth site cache w = (Ok site', w') →
  ∀ url, url ∈ keys (Site_pages site') →
    url ∈ keys (Site_pages site) ∨ URL_host url = URL_host (Site_url site).
Proof.
  intros Hfree Hd Hrun url Hin.
  destruct (walk_site_host _ _ _ _ _ _ _ Hfree Hd Hrun (λ u Hu, Hu) url Hin)
    as [Hold|[->|[Hh _]]]; [by left|by right|by right].
Qed.

Lemma walk_stays_on_host_witness :
  let L := Toy.bounded Toy.scenario in
  let cache := mkPageCache (pathlib.Path "/tmp/cache") in
  let site := mkSite (Toy.url "/") [] in
  let w := Toy.empty_world in
  let run := @walk_site L 10 site cache w in
  let site' := match run.1 with Ok s => s | Raise _ => site end in
  (@collision_free_on L (asked w run.2) ∧ @answers_for L (asked w run.2) (disk w)
   ∧ run = (Ok site', run.2)) ∧
  ∀ url, url ∈ keys (Site_pages site') →
    url ∈ keys (Site_pages site) ∨ URL_host url = URL_host (Site_url site).
Proof.
  intros L cache site w run site'.
  assert (Hok : run.1 = Ok site') by (vm_compute; reflexivity).
  assert (Hrun : run = (Ok site', run.2))
    by (rewrite <- Hok; apply surjective_pairing).
  assert (Hfree : @collision_free_on L (asked w run.2)).
  { apply collision_free_on_NoDup. apply (bool_decide_unpack _).
    vm_compute. exact I. }
  split; [exact (conj Hfree (conj (answers_for_empty _) Hrun))|].
  exact (@walk_stays_on_host L 10 site cache w site' run.2
           Hfree (answers_for_empty _) Hrun).
Defined.

(** ** After a walk, the cache holds the site *)

Lemma elem_of_setitem kv k v d :
  kv ∈ dict_setitem k v d → kv = (k, v) ∨ kv ∈ d.
Proof.
  unfold dict_setitem. destruct (dict_contains k d).
  - intros ([k' v'] & -> & Hin)%list_elem_of_fmap. simpl.
    case_decide; simplify_eq/=; [by left|by right].
  - intros [?| ->%list_elem_of_singleton]%elem_of_app; [by right|by left].
Qed.

Lemma elem_of_keys k (d : dict) : k ∈ keys d → ∃ v, (k, v) ∈ d.
Proof.
  intros ([k' v] & -> & Hin)%list_elem_of_fmap. by exists v.
Qed.

(** The items of the map that the walk did not start with are in the
    cache. *)
Lemma walk_site_on_disk `{Libraries} depth site cache urls w site' w' :
  collision_free_on urls →
  answers_for urls (disk w) →
  walk_site depth site cache w = (Ok site', w') →
  asked w w' ⊆ urls →
  ∀ kv, kv ∈ Site_pages site' →
    kv ∈ Site_pages site ∨ disk w' !! cache_path kv.1 = Some (Pickled kv.2).
Proof.
  intros Hfree Hd Hrun Hasked.
  apply walk_site_inv in Hrun as [_ (r1 & w1 & Hget & Hcase)].
  destruct r1 as [root|e]; [|by destruct Hcase as ([=] & _)].
  destruct Hcase as [Hrun Heq]. rewrite Heq in Hasked.
  assert (Hu : Site_url site ∈ urls) by (apply Hasked, elem_of_cons; by left).
  assert (Hasked1 : asked w1 w' ⊆ urls)
    by (intros u Hin; apply Hasked, elem_of_cons; by right).
  set (Inv := λ (site1 : Site) (w2 : World),
         answers_for urls (disk w2)
         ∧ ∀ kv, kv ∈ Site_pages site1 →
             kv ∈ Site_pages site ∨ disk w2 !! cache_path kv.1 = Some (Pickled kv.2)).
  assert (Hstep : ∀ site1 url w2 page w3,
    url ∈ urls → Inv site1 w2 →
    PageCache_get_page cache url w2 = (Ok page, w3) →
    Inv (mkSite (Site_url site1)
           (dict_setitem (Page_url page) page (Site_pages site1))) w3).
  { intros site1 url w2 page w3 Hin [Hd2 Hon] Hget2.
    destruct (PageCache_get_page_answers _ _ _ _ _ _ Hfree Hin Hd2 Hget2)
      as [Hd3 Hurl].
    destruct (PageCache_get_page_stable _ _ _ _ _ Hget2) as [Hst Hpage].
    assert (Page_url page = url) as -> by (by apply Hurl).
    split; [done|]. simpl. intros kv [->|Hkv]%elem_of_setitem.
    - right. by apply Hpage.
    - destruct (Hon _ Hkv) as [Hold|Hdisk]; [by left|]. right. by apply Hst. }
  eapply (process_page_rule_on cache urls Inv (λ _ _, True) (λ _, True)) in Hrun.
  - by destruct Hrun as [_ Hon].
  - intros site1 w2 rec _ [Hd2 Hon]. by split.
  - done.
  - intros site1 page links url w2 r w2' Hin _ _ _ Hinv _ Hget2.
    destruct r as [new_page|e]; [|done]. split; [done|]. by eapply Hstep.
  - done.
  - apply (Hstep site (Site_url site) (log_step (LogWalking site) w)); [done| |done].
    split; [done|]. intros kv Hkv. by left.
  - done.
Qed.

(** X: in a walk that completes, when no two of the URLs asked of the
    cache share a file name and the cache held, under their file names, no
    page of another URL, every item the walk has added to the page map is
    in the cache: the artifact under the file name of its key is the pickle
    of its page. *)
Theorem walk_caches_every_page `{Libraries} depth site cache w site' w' :
  collision_free_on (asked w w') →
  answers_for (asked w w') (disk w) →
  walk_site depth site cache w = (Ok site', w') →
  ∀ url page, (url, page) ∈ Site_pages site' →
    (url, page) ∈ Site_pages site
    ∨ disk w' !! cache_path url = Some (Pickled page).
Proof.
  intros Hfree Hd Hrun url page Hin.
  by apply (walk_site_on_disk _ _ _ _ _ _ _ Hfree Hd Hrun (λ u Hu, Hu) (url, page)).
Qed.

Lemma walk_caches_every_page_witness :
  let L := Toy.bounded Toy.scenario in
  let cache := mkPageCache (pathlib.Path "/tmp/cache") in
  let site := mkSite (Toy.url "/") [] in
  let w := Toy.empty_world in
  let run := @walk_site L 10 site cache w in
  let site' := match run.1 with Ok s => s | Raise _ => site end in
  (@collision_free_on L (asked w run.2) ∧ @answers_for L (asked w run.2) (disk w)
   ∧ run = (Ok site', run.2)) ∧
  ∀ url page, (url, page) ∈ Site_pages site' →
    (url, page) ∈ Site_pages site
    ∨ disk run.2 !! @cache_path L url = Some (Pickled page).
Proof.
  intros L cache site w run site'.
  assert (Hok : run.1 = Ok site') by (vm_compute; reflexivity).
  assert (Hrun : run = (Ok site', run.2))
    by (rewrite <- Hok; apply surjective_pairing).
  assert (Hfree : @collision_free_on L (asked w run.2)).
  { apply collision_free_on_NoDup. apply (bool_decide_unpack _).
    vm_compute. exact I. }
  split; [exact (conj Hfree (conj (answers_for_empty _) Hrun))|].
  exact (@walk_caches_every_page L 10 site cache w site' run.2
           Hfree (answers_for_empty _) Hrun).
Defined.

(** ** A second walk is served from the cache *)

Section SecondWalk.
Context `{Libraries}.
Variable cache : PageCache.
Variables (site' : Site) (w' : World).
Hypothesis Hclosed : closed (Site_pages site').
Hypothesis Hon : on_disk (disk w') (Site_pages site').

(** The world is [w'] but for its log. *)
Lemma offline_hit url w :
  requests w = requests w' ∧ disk w = disk w' →
  url ∈ keys (Site_pages site') →
  ∃ page, (url, page) ∈ Site_pages site'
    ∧ PageCache_get_page cache url w
      = (Ok page, log_step (LogReading url (cache_path url)) w).
Proof.
  intros [Hreq Hdisk] [page Hin]%elem_of_keys. exists page. split; [done|].
  apply PageCache_get_page_hit. rewrite Hdisk. by apply (Hon (url, page)).
Qed.

Lemma process_page_offline depth site page w r w'' :
  (∃ k, (k, page) ∈ Site_pages site') →
  requests w = requests w' ∧ disk w = disk w' →
  process_page depth site page cache w = (r, w'') →
  requests w'' = requests w' ∧ disk w'' = disk w'.
Proof.
  intros HP Hinv Hrun.
  eapply (process_page_rule_links cache
            (λ _ w1, requests w1 = requests w' ∧ disk w1 = disk w')
            (λ _ w1, requests w1 = requests w' ∧ disk w1 = disk w')
            (λ page1, ∃ k, (k, page1) ∈ Site_pages site')) in Hrun;
    [by destruct r|done|done| |done|done].
  intros site1 page1 urls url w1 r1 w1' [k Hk] Hurls Hin Hinv1 _ Hget.
  assert (Hkey : url ∈ keys (Site_pages site'))
    by (by eapply (Hclosed (k, page1))).
  destruct (offline_hit url w1 Hinv1 Hkey) as (page2 & Hin2 & Hhit).
  rewrite Hhit in Hget. inversion Hget; subst r1 w1'; clear Hget.
  split; [by exists url|done].
Qed.

End SecondWalk.

(** X: after a walk that started with an empty map and completed, in
    which no two of the URLs asked of the cache shared a file name and the
    cache held, under their file names, no page of another URL, a second
    walk of the same site, from the world the first has left, sends no
    request and changes no file: every page it asks for is read from the
    cache, whatever its recursion limit and however it ends. *)
Theorem second_walk_sends_no_request `{Libraries} depth site cache w site' w'
    depth2 r w'' :
  collision_free_on (asked w w') →
  answers_for (asked w w') (disk w) →
  Site_pages site = [] →
  walk_site depth site cache w = (Ok site', w') →
  walk_site depth2 site cache w' = (r, w'') →
  requests w'' = requests w' ∧ disk w'' = disk w'.
Proof.
  intros Hfree Hd Hempty Hfirst Hsecond.
  destruct (walk_site_closed cache _ Hfree _ _ _ _ _ Hd Hempty Hfirst (λ u Hu, Hu))
    as [Hroot Hclosed].
  assert (Hon : on_disk (disk w') (Site_pages site')).
  { intros kv Hkv.
    destruct (walk_site_on_disk _ _ _ _ _ _ _ Hfree Hd Hfirst (λ u Hu, Hu) kv Hkv)
      as [Hold|Hdisk]; [|done].
    rewrite Hempty in Hold. by apply elem_of_nil in Hold. }
  unfold walk_site in Hsecond. rewrite bind_LOG in Hsecond.
  destruct (offline_hit cache site' w' Hon (Site_url site)
              (log_step (LogWalking site) w') (conj eq_refl eq_refl) Hroot)
    as (root & Hin & Hhit).
  apply bind_inv in Hsecond as [(root2 & w1 & Hget & Hrun)|(e & Hget & _)].
  - rewrite Hhit in Hget. inversion Hget; subst root2 w1; clear Hget.
    eapply (process_page_offline cache site' w' Hclosed Hon) in Hrun; [done| |done].
    by exists (Site_url site).
  - rewrite Hhit in Hget. inversion Hget.
Qed.

Lemma second_walk_sends_no_request_witness :
  let L := Toy.bounded Toy.scenario in
  let cache := mkPageCache (pathlib.Path "/tmp/cache") in
  let site := mkSite (Toy.url "/") [] in
  let w := Toy.empty_world in
  let first := @walk_site L 10 site cache w in
  let site' := match first.1 with Ok s => s | Raise _ => site end in
  let second := @walk_site L 2 site cache first.2 in
  (@collision_free_on L (asked w first.2) ∧ @answers_for L (asked w first.2) (disk w)
   ∧ Site_pages site = [] ∧ first = (Ok site', first.2)) ∧
  requests second.2 = requests first.2 ∧ disk second.2 = disk first.2.
Proof.
  intros L cache site w first site' second.
  assert (Hok : first.1 = Ok site') by (vm_compute; reflexivity).
  assert (Hfirst : first = (Ok site', first.2))
    by (rewrite <- Hok; apply surjective_pairing).
  assert (Hfree : @collision_free_on L (asked w first.2)).
  { apply collision_free_on_NoDup. apply (bool_decide_unpack _).
    vm_compute. exact I. }
  split; [exact (conj Hfree (conj (answers_for_empty _) (conj eq_refl Hfirst)))|].
  exact (@second_walk_sends_no_request L 10 site cache w site'
           first.2 2 second.1 second.2 Hfree (answers_for_empty _)
           eq_refl Hfirst (surjective_pairing second)).
Defined.

(** ** The whole run *)

Section WholeRun.
Context `{Libraries}.
Variable cache : PageCache.

Lemma walk_site_keyed depth site w site' w' :
  pages_keyed (Site_pages site) →
  walk_site depth site cache w = (Ok site', w') →
  pages_keyed (Site_pages site').
Proof.
  intros Hk Hrun. unfold walk_site in Hrun. rewrite bind_LOG in Hrun.
  apply bind_inv in Hrun as [(root & w1 & _ & Hrun)|(e & _ & ?)]; [|done].
  eapply process_page_keyed; [|done]. by apply pages_keyed_setitem.
Qed.

Lemma cache_path_tostr url1 url2 :
  URL_furl_tostr url1 = URL_furl_tostr url2 → cache_path url1 = cache_path url2.
Proof. intros Heq. unfold cache_path. by rewrite Heq. Qed.

(** The columns of the original page in the rows of the report. *)
Lemma rows_of_pages target (w' : World) pages rows :
  pages_keyed pages →
  Forall2 (λ item row, ∃ target_page,
    disk w' !! cache_path (target_url_of target item.2) = Some (Pickled target_page) ∧
    row = row_of item.2 target_page) pages rows →
  original <$> rows = URL_furl_tostr <$> keys pages.
Proof.
  intros Hkeyed Hrows. induction Hrows as [|[k page] row pages rows Hrow _ IH].
  - done.
  - apply Forall_cons in Hkeyed as [Hk Hkeyed]. simpl in Hk.
    destruct Hrow as (target_page & _ & ->).
    unfold keys in *. rewrite !fmap_cons, (IH Hkeyed). simpl. by rewrite Hk.
Qed.

End WholeRun.

(** X: in a run of [main] that completes, when no two of the URLs asked of
    the cache share a file name and the cache held, under their file names,
    no page of another URL: both roots were parsed, and standard output
    has received the header and then the rows of the report, where no two
    rows have the same original URL, the first row is that of the original
    root, and in every row the original URL is the root itself or is made
    of the host of the original root and the path of the row, the target
    URL is made of the host of the target root and the same path, both with
    the scheme [https], and the two path columns are equal. *)
Theorem main_reports_each_page_once `{Libraries} depth original_site target_site
    cache_path w w' :
  collision_free_on (asked w w') →
  answers_for (asked w w') (disk w) →
  main depth original_site target_site cache_path w = (Ok (), w') →
  ∃ fo ft rows,
    furl_furl (with_slash original_site) = Ok fo ∧
    furl_furl (with_slash target_site) = Ok ft ∧
    stdout w' = stdout w ++ Header :: (Line <$> rows) ∧
    NoDup (original <$> rows) ∧
    head (original <$> rows)
    = Some (URL_furl_tostr
              (URL_new (furl_host fo)
                 (pathlib.Path (furl_path.normalize (furl_path fo))))) ∧
    Forall (λ row,
      original row = furl_tostr default_scheme (furl_host fo) (original_path row)
      ∧ target row = furl_tostr default_scheme (furl_host ft) (original_path row)
      ∧ target_path row = original_path row) rows.
Proof.
  intros Hfree Hd Hrun.
  apply main_inv in Hrun as [[_ [e [=]]]|(fo & ft & Hfo & Hft & r1 & w1 & Hwalk & Hcase)].
  destruct r1 as [site'|e]; [|by destruct Hcase as [[=] _]].
  set (cache := mkPageCache cache_path) in *.
  set (w0 := log_step (LogComparing (root_site fo) (root_site ft)) w) in *.
  set (urls := asked w w') in *.
  (* the report *)
  unfold main_report in Hcase.
  apply bind_inv in Hcase as [([] & w2 & Hhead & Hreport)|(e & Hhead & _)]; [|done].
  inversion Hhead; subst w2; clear Hhead.
  apply (report_loop (root_site ft) cache) in Hreport
    as (rows & new' & Hout & Hlog' & Hl' & _ & Hrows & Hans).
  simpl in Hout, Hlog'.
  (* the URLs asked for *)
  destruct (proj1 (walk_site_inv cache _ _ _ _ _ Hwalk)) as [new Hlog].
  assert (Hasked : asked w w' = asked w0 w1 ++ lookups new').
  { rewrite (asked_app w0 w1 new Hlog).
    rewrite (asked_app w w' ([LogComparing (root_site fo) (root_site ft)]
                               ++ new ++ new')).
    - by rewrite !lookups_app.
    - rewrite Hlog', Hlog. simpl. by rewrite <- !app_assoc. }
  assert (Hasked1 : asked w0 w1 ⊆ urls)
    by (intros u Hu; unfold urls; rewrite Hasked; apply elem_of_app; by left).
  assert (Hasked2 : lookups new' ⊆ urls)
    by (intros u Hu; unfold urls; rewrite Hasked; apply elem_of_app; by right).
  assert (Hd0 : answers_for urls (disk w0)) by exact Hd.
  (* the walk *)
  assert (Hempty : Site_pages (root_site fo) = []) by reflexivity.
  assert (Hkeyed0 : pages_keyed (Site_pages (root_site fo))) by apply Forall_nil_2.
  pose proof (walk_site_keyed cache _ _ _ _ _ Hkeyed0 Hwalk) as Hkeyed.
  destruct (walk_site_lookups _ _ _ _ _ _ _ Hfree Hd0 Hwalk Hasked1)
    as (new1 & Hlog1 & Hnd & _ & Hfirst & Hd1 & _ & Hkeys).
  rewrite Hlog in Hlog1. apply app_inv_head in Hlog1 as <-.
  specialize (Hkeys Hempty).
  pose proof (walk_site_host _ _ _ _ _ _ _ Hfree Hd0 Hwalk Hasked1) as Hhost.
  pose proof (walk_site_stdout _ _ _ _ _ _ Hwalk) as Hout1.
  pose proof (Hans urls Hfree Hasked2 Hd1) as Hd'.
  pose proof (rows_of_pages _ _ _ _ Hkeyed Hrows) as Horig.
  exists fo, ft, rows. split; [done|]. split; [done|].
  split. { rewrite Hout. simpl. rewrite Hout1. simpl. by rewrite <- app_assoc. }
  split.
  { rewrite Horig, Hkeys. apply NoDup_fmap_2_strong; [|done].
    intros u v Hu Hv Heq. apply Hfree.
    - apply Hasked1. by rewrite (asked_app _ _ _ Hlog).
    - apply Hasked1. by rewrite (asked_app _ _ _ Hlog).
    - by apply cache_path_tostr. }
  split.
  { rewrite Horig, Hkeys. by destruct (lookups new) as [|u us]; simplify_eq/=. }
  apply Forall2_with_elem_of in Hrows.
  eapply Forall2_right; [exact Hrows|]. simpl.
  intros item row (Hitem & target_page & Hin & ->).
  assert (Hk : Page_url item.2 = item.1).
  { unfold pages_keyed in Hkeyed. rewrite Forall_forall in Hkeyed.
    by apply Hkeyed. }
  assert (Hkey : item.1 ∈ keys (Site_pages site')).
  { apply list_elem_of_fmap. by exists item. }
  assert (Hurl : Page_url target_page = target_url_of (root_site ft) item.2).
  { apply (Hd' _ target_page); [|exact Hin]. apply Hasked2.
    rewrite Hl'. apply list_elem_of_fmap. exists item.2. split; [done|].
    apply list_elem_of_fmap. by exists item. }
  simpl. rewrite Hurl. simpl. split; [|done].
  rewrite Hk. unfold URL_furl_tostr.
  destruct (Hhost _ Hkey) as [Hold|[->|[-> ->]]]; [|done..].
  rewrite Hempty in Hold. by apply elem_of_nil in Hold.
Qed.

Lemma main_reports_each_page_once_witness :
  let L := Toy.bounded Toy.scenario in
  let w := Toy.empty_world in
  let run := @main L 10 "//h" "//t" (pathlib.Path "/tmp/cache") w in
  (@collision_free_on L (asked w run.2) ∧ @answers_for L (asked w run.2) (disk w)
   ∧ run = (Ok (), run.2)) ∧
  ∃ fo ft rows,
    @furl_furl L (with_slash "//h") = Ok fo ∧
    @furl_furl L (with_slash "//t") = Ok ft ∧
    stdout run.2 = stdout w ++ Header :: (Line <$> rows) ∧
    NoDup (original <$> rows) ∧
    head (original <$> rows)
    = Some (@URL_furl_tostr L
              (URL_new (furl_host fo)
                 (pathlib.Path (furl_path.normalize (furl_path fo))))) ∧
    Forall (λ row,
      original row = @furl_tostr L default_scheme (furl_host fo) (original_path row)
      ∧ target row = @furl_tostr L default_scheme (furl_host ft) (original_path row)
      ∧ target_path row = original_path row) rows.
Proof.
  intros L w run.
  assert (Hok : run.1 = Ok ()) by (vm_compute; reflexivity).
  assert (Hrun : run = (Ok (), run.2))
    by (rewrite <- Hok; apply surjective_pairing).
  assert (Hfree : @collision_free_on L (asked w run.2)).
  { apply collision_free_on_NoDup. apply (bool_decide_unpack _).
    vm_compute. exact I. }
  split; [exact (conj Hfree (conj (answers_for_empty _) Hrun))|].
  exact (@main_reports_each_page_once L 10 "//h" "//t" (pathlib.Path "/tmp/cache")
           w run.2 Hfree (answers_for_empty _) Hrun).
Defined.

(** ** A larger recursion limit *)

Lemma process_page_deeper `{Libraries} cache depth : ∀ site page w r w',
  process_page depth site page cache w = (r, w') →
  r ≠ Raise RecursionError →
  process_page (S depth) site page cache w = (r, w').
Proof.
  induction depth as [|depth IH]; intros site page w r w' Hrun Hr.
  { inversion Hrun; subst. done. }
  remember (S depth) as depth1 eqn:Hdepth1.
  rewrite Hdepth1 in Hrun. simpl in Hrun. simpl.
  rewrite bind_LOG in Hrun. rewrite bind_LOG.
  apply bind_lift_inv in Hrun as [(urls & Hurls & Hrun)|(e & Hurls & -> & ->)].
  2: { unfold mbind, M_bind, bind, lift. by rewrite Hurls. }
  unfold mbind at 1, M_bind at 1, bind at 1, lift. rewrite Hurls.
  revert Hrun. generalize (log_step (LogProcessPage page) w). clear w Hurls.
  revert site.
  induction urls as [|url urls IHurls]; intros site w Hrun; [done|].
  simpl in Hrun. simpl.
  assert (Hbody : ∀ r1 w1,
    (LOG (LogProcessing page url);;
     if negb (dict_contains url (Site_pages site)) then
       LOG (LogFetching url);;
       new_page ← PageCache_get_page cache url;
       process_page depth
         (mkSite (Site_url site)
            (dict_setitem (Page_url new_page) new_page (Site_pages site)))
         new_page cache
     else mret site) w = (r1, w1) →
    r1 ≠ Raise RecursionError →
    (LOG (LogProcessing page url);;
     if negb (dict_contains url (Site_pages site)) then
       LOG (LogFetching url);;
       new_page ← PageCache_get_page cache url;
       process_page depth1
         (mkSite (Site_url site)
            (dict_setitem (Page_url new_page) new_page (Site_pages site)))
         new_page cache
     else mret site) w = (r1, w1)).
  { intros r1 w1 Hb Hr1. rewrite bind_LOG in Hb. rewrite bind_LOG.
    destruct (dict_contains url (Site_pages site)); simpl in *; [done|].
    rewrite bind_LOG in Hb. rewrite bind_LOG.
    apply bind_inv in Hb as [(p & w2 & Hget & Hb)|(e & Hget & ->)].
    - rewrite (bind_ok _ _ _ _ _ Hget). subst depth1. by apply IH.
    - by rewrite (bind_raise _ _ _ _ _ Hget). }
  apply bind_inv in Hrun as [(site1 & w1 & Hb & Hrun)|(e & Hb & ->)].
  - apply Hbody in Hb; [|done]. rewrite (bind_ok _ _ _ _ _ Hb). by apply IHurls.
  - apply Hbody in Hb; [|done]. by rewrite (bind_raise _ _ _ _ _ Hb).
Qed.

(** X: a walk that ends otherwise than by [RecursionError] ends the same
    way, in the same world, under any larger recursion limit. *)
Theorem larger_limit_same_walk `{Libraries} depth depth' site cache w r w' :
  depth ≤ depth' →
  walk_site depth site cache w = (r, w') →
  r ≠ Raise RecursionError →
  walk_site depth' site cache w = (r, w').
Proof.
  intros Hle Hrun Hr. induction Hle as [|depth' Hle IH]; [done|].
  unfold walk_site in *. rewrite bind_LOG in *.
  apply bind_inv in IH as [(root & w1 & Hget & IH)|(e & Hget & ->)].
  - rewrite (bind_ok _ _ _ _ _ Hget). by apply process_page_deeper.
  - by rewrite (bind_raise _ _ _ _ _ Hget).
Qed.

Lemma larger_limit_same_walk_witness :
  let L := Toy.libraries Toy.scenario in
  let cache := mkPageCache (pathlib.Path "/tmp/cache") in
  let site := mkSite (Toy.url "/") [] in
  let run := @walk_site L 3 site cache Toy.empty_world in
  (3 ≤ 1000 ∧ run.1 ≠ Raise RecursionError) ∧
  @walk_site L 1000 site cache Toy.empty_world = (run.1, run.2).
Proof.
  intros L cache site run.
  assert (Hle : 3 ≤ 1000) by lia.
  assert (Hr : run.1 ≠ Raise RecursionError) by (vm_compute; discriminate).
  split; [exact (conj Hle Hr)|].
  exact (@larger_limit_same_walk L 3 1000 site cache Toy.empty_world run.1 run.2
           Hle (surjective_pairing run) Hr).
Defined.

(** On the small instance the limit matters: two nested calls are not
    enough to reach [/missing], three are. *)
Example limit_reached :
  let L := Toy.libraries Toy.scenario in
  let cache := mkPageCache (pathlib.Path "/tmp/cache") in
  let site := mkSite (Toy.url "/") [] in
  (@walk_site L 2 site cache Toy.empty_world).1 = Raise RecursionError
  ∧ (match (@walk_site L 3 site cache Toy.empty_world).1 with
     | Ok site' => Some (length (Site_pages site'))
     | Raise _ => None
     end) = Some 4.
Proof. vm_compute. done. Qed.

(** ** Joining a relative path *)

Lemma split_slash_cons s : ∃ x xs, Str.split_slash s = x :: xs.
Proof.
  destruct s as [|a s]; simpl; [eauto|].
  case_bool_decide; [eauto|]. destruct (Str.split_slash s); eauto.
Qed.

Lemma split_slash_sep x y :
  Str.split_slash (x +:+ "/" +:+ y) = Str.split_slash x ++ Str.split_slash y.
Proof.
  induction x as [|a x IH]; [done|].
  rewrite app_String. simpl. rewrite IH.
  case_bool_decide; [done|].
  by destruct (split_slash_cons x) as (x0 & xs & ->).
Qed.

Lemma endswith_slash_free x : slash_free x → Str.endswith_slash x = false.
Proof.
  induction x as [|a x IH]; [done|]. intros [Ha Hx]. simpl.
  destruct x; [by apply bool_decide_eq_false_2|by apply IH].
Qed.

Lemma endswith_slash_app_r x a y :
  Str.endswith_slash (x +:+ String a y) = Str.endswith_slash (String a y).
Proof.
  induction x as [|b x IH]; [done|].
  rewrite app_String.
  change (Str.endswith_slash (String b (x +:+ String a y)))
    with (match x +:+ String a y with
          | EmptyString => bool_decide (b = "/"%char)
          | _ => Str.endswith_slash (x +:+ String a y)
          end).
  destruct (x +:+ String a y) eqn:Hx.
  - destruct x; inversion Hx.
  - exact IH.
Qed.

Lemma join_slash_cons_valid x l :
  valid_part x → ∃ a rest, Str.join_slash (x :: l) = String a rest ∧ a ≠ "/"%char.
Proof.
  intros (Hx & _ & Hfree). destruct x as [|a x]; [done|].
  destruct Hfree as [Ha _]. destruct l; simpl; eauto.
Qed.

Lemma endswith_slash_join tail :
  tail ≠ [] → Forall valid_part tail →
  Str.endswith_slash (Str.join_slash tail) = false.
Proof.
  induction tail as [|x l IH]; [done|]. intros _ [Hx Hl]%Forall_cons.
  destruct l as [|y l].
  - apply endswith_slash_free. by destruct Hx as (_ & _ & ?).
  - change (Str.join_slash (x :: y :: l))
      with (x +:+ String "/" (Str.join_slash (y :: l))).
    rewrite endswith_slash_app_r.
    apply Forall_cons in Hl as Hl'. destruct Hl' as [Hy _].
    destruct (join_slash_cons_valid y l Hy) as (a & rest & Hj & _).
    specialize (IH ltac:(done) Hl). rewrite Hj in *. exact IH.
Qed.

Lemma relative_text tail :
  Forall valid_part tail →
  Str.startswith (pathlib.format_parsed_parts "" tail) "/" = false
  ∧ filter (λ x, x ≠ "" ∧ x ≠ ".")
      (Str.split_slash (pathlib.format_parsed_parts "" tail)) = tail.
Proof.
  intros Htail. unfold pathlib.format_parsed_parts. rewrite app_Empty.
  destruct tail as [|x l]; [done|].
  apply Forall_cons in Htail as Htail'. destruct Htail' as [Hx _].
  destruct (join_slash_cons_valid x l Hx) as (a & rest & Hj & Ha).
  rewrite bool_decide_eq_false_2 by (by rewrite Hj).
  split; [by apply join_valid_no_slash|by apply split_join_tail].
Qed.

Lemma parse_path_String a s :
  pathlib.parse_path (String a s)
  = ((posixpath.splitroot (String a s)).1,
     filter (λ x, x ≠ "" ∧ x ≠ ".")
       (Str.split_slash (posixpath.splitroot (String a s)).2)).
Proof.
  unfold pathlib.parse_path. rewrite bool_decide_eq_false_2 by done.
  by destruct (posixpath.splitroot (String a s)).
Qed.

(** The text of a path followed by a relative text: the components of the
    first and then those of the second. *)
Lemma parse_join root tail tail' :
  valid_root root → Forall valid_part tail → Forall valid_part tail' →
  pathlib.parse_path
    (posixpath.join (pathlib.format_parsed_parts root tail)
                    (pathlib.format_parsed_parts "" tail'))
  = (root, tail ++ tail').
Proof.
  intros Hroot Htail Htail'.
  destruct (relative_text _ Htail') as [Hrel Hsplit'].
  set (B := pathlib.format_parsed_parts "" tail') in *.
  unfold posixpath.join. rewrite Hrel.
  destruct tail as [|x l].
  - (* the path is its root, or [.] *)
    destruct Hroot as [->|[->| ->]];
      unfold pathlib.format_parsed_parts; simpl.
    + change ("." +:+ "/" +:+ B) with (String "." (String "/" B)).
      rewrite parse_path_String. unfold posixpath.splitroot. simpl.
      rewrite filter_cons_False by (intros [_ ?]; done). by rewrite Hsplit'.
    + change (("/" +:+ "") +:+ B) with (String "/" B).
      rewrite parse_path_String, splitroot_one by done. simpl. by rewrite Hsplit'.
    + change (("//" +:+ "") +:+ B) with (String "/" (String "/" B)).
      rewrite parse_path_String, splitroot_two by done. simpl. by rewrite Hsplit'.
  - (* the path has components *)
    apply Forall_cons in Htail as Htail1. destruct Htail1 as [Hx _].
    destruct (join_slash_cons_valid x l Hx) as (a & rest & Hj & Ha).
    pose proof (endswith_slash_join (x :: l) ltac:(done) Htail) as Hend.
    pose proof (split_join_tail _ Htail) as Hsplit.
    assert (Hbody :
      filter (λ x, x ≠ "" ∧ x ≠ ".")
        (Str.split_slash (Str.join_slash (x :: l) +:+ "/" +:+ B))
      = (x :: l) ++ tail').
    { by rewrite split_slash_sep, filter_app, Hsplit, Hsplit'. }
    assert (Hstart : Str.startswith (Str.join_slash (x :: l) +:+ "/" +:+ B) "/" = false).
    { rewrite Hj, app_String. simpl. by rewrite bool_decide_eq_false_2. }
    unfold pathlib.format_parsed_parts. rewrite Hj in *.
    rewrite app_String in Hbody, Hstart.
    destruct Hroot as [->|[->| ->]].
    + rewrite app_Empty. rewrite bool_decide_eq_false_2 by done.
      rewrite bool_decide_eq_false_2 by done. rewrite Hend.
      cbn [orb]. rewrite app_String.
      rewrite parse_path_String, splitroot_relative by done. cbn [fst snd].
      f_equal. exact Hbody.
    + change ("/" +:+ String a rest) with (String "/" (String a rest)).
      rewrite bool_decide_eq_false_2 by done.
      rewrite bool_decide_eq_false_2 by done.
      change (Str.endswith_slash (String "/" (String a rest)))
        with (Str.endswith_slash (String a rest)).
      rewrite Hend. cbn [orb]. rewrite !app_String.
      rewrite parse_path_String, splitroot_one by done. cbn [fst snd].
      f_equal. exact Hbody.
    + change ("//" +:+ String a rest) with (String "/" (String "/" (String a rest))).
      rewrite bool_decide_eq_false_2 by done.
      rewrite bool_decide_eq_false_2 by done.
      change (Str.endswith_slash (String "/" (String "/" (String a rest))))
        with (Str.endswith_slash (String a rest)).
      rewrite Hend. cbn [orb]. rewrite !app_String.
      rewrite parse_path_String, splitroot_two by done. cbn [fst snd].
      f_equal. exact Hbody.
Qed.

Lemma parse_path_relative b :
  Str.startswith b "/" = false → (pathlib.parse_path b).1 = "".
Proof.
  intros Hb. unfold pathlib.parse_path. case_bool_decide; [done|].
  by rewrite splitroot_relative.
Qed.

(** X: [URL.join_path] with a relative path: the path of the new URL has the
    root of the URL's path, and its components followed by those of the
    other path, in order.  Nothing is resolved: a [..] of the other path
    stays in the result, and no component of the URL's path is dropped.
    With an other path that has no component (the text [""] or ["."])
    the path is unchanged. *)
Theorem join_path_relative (self : URL) (a b : string) :
  URL_path self = pathlib.Path a →
  Str.startswith b "/" = false →
  let root := (pathlib.parse_path a).1 in
  let tail := (pathlib.parse_path a).2 ++ (pathlib.parse_path b).2 in
  let joined := URL_join_path self (pathlib.Path b) in
  URL_path joined = mkPath (pathlib.format_parsed_parts root tail)
  ∧ pathlib.parse_path (Path_str (URL_path joined)) = (root, tail)
  ∧ ((pathlib.parse_path b).2 = [] → URL_path joined = URL_path self).
Proof.
  intros Hself Hb root tail joined.
  pose proof (parse_path_valid a) as [Hroot Htail].
  pose proof (parse_path_valid b) as [_ Htail'].
  pose proof (parse_path_relative b Hb) as Hrel.
  assert (Hvalid : Forall valid_part tail) by by apply Forall_app.
  assert (Hjoined :
    URL_path joined = mkPath (pathlib.format_parsed_parts root tail)).
  { subst joined. unfold URL_join_path, pathlib.truediv. cbn [URL_path URL_new].
    rewrite Hself. unfold pathlib.Path at 2 3.
    destruct (pathlib.parse_path a) as [ra ta].
    destruct (pathlib.parse_path b) as [rb tb]. simpl in *. subst rb.
    unfold pathlib.Path. by rewrite parse_join. }
  split; [done|]. split.
  - rewrite Hjoined. cbn [Path_str]. by apply parse_format.
  - intros Hnone. rewrite Hjoined, Hself. subst tail root. rewrite Hnone, app_nil_r.
    unfold pathlib.Path. by destruct (pathlib.parse_path a).
Qed.

Lemma join_path_relative_witness :
  let self := URL_new (Some "h") (pathlib.Path "/a/./b") in
  let joined := URL_join_path self (pathlib.Path "../c//d") in
  URL_path joined = mkPath "/a/b/../c/d"
  ∧ pathlib.parse_path (Path_str (URL_path joined)) = ("/", ["a"; "b"; ".."; "c"; "d"]).
Proof.
  pose proof (join_path_relative (URL_new (Some "h") (pathlib.Path "/a/./b"))
                "/a/./b" "../c//d" eq_refl eq_refl) as (H1 & H2 & _).
  exact (conj H1 H2).
Defined.
